(** * gaiaclient: the wait engine, the machine signals and the action registry

    A shallow embedding of [gaiaclient.py] (class [Client]) and the
    properties of its three parts:

    - the application wait engine ([app_wait_event], the listener
      [on_app_message], [wait_app_state]);
    - the machine signal tracker ([on_status_message]);
    - the hypermedia resolver and the actions it builds ([_get_actions],
      [_get_fields], [post_func], [get_func], the registration loop of
      [Client.__init__]).

    Python objects that are shared and mutated ([threading.Event],
    [queue.Queue]) live in a store indexed by locations; dictionaries with a
    fixed set of keys are records; dictionaries used as maps are [gmap]s.
    Exceptions are values of type [exn]; a call that may raise returns
    [exn + A]. A function that works on the shared objects is given as the
    sequence of the calls it makes on them, so that the states between two
    calls, in which a thread that waits may be woken, can be spoken of. *)

From Stdlib Require Import ZArith String List Bool.
From stdpp Require Import base option list gmap strings fin_maps.

Local Open Scope string_scope.
Local Open Scope list_scope.
Local Open Scope Z_scope.

(** ** Python values *)

(** The values that [json.loads] produces and that callers pass as states:
    [None], booleans, integers, strings and lists. Nested JSON objects and
    floating-point numbers are not part of the model. *)
#[warnings="-register-all"]
Inductive pyval : Type :=
| PyNone
| PyBool (b : bool)
| PyInt (z : Z)
| PyStr (s : string)
| PyList (l : list pyval).

(** Python's [==] on these values: a boolean equals the integer 0 or 1,
    lists are compared element by element, values of different types are
    unequal (so a list never equals a string). *)
Fixpoint py_eq (a b : pyval) : bool :=
  match a, b with
  | PyNone, PyNone => true
  | PyBool x, PyBool y => Bool.eqb x y
  | PyBool x, PyInt z => Z.eqb (if x then 1 else 0) z
  | PyInt z, PyBool x => Z.eqb z (if x then 1 else 0)
  | PyInt x, PyInt y => Z.eqb x y
  | PyStr s, PyStr t => String.eqb s t
  | PyList l, PyList m =>
      (fix list_eq (l m : list pyval) : bool :=
         match l, m with
         | [], [] => true
         | x :: l', y :: m' => py_eq x y && list_eq l' m'
         | _, _ => false
         end) l m
  | _, _ => false
  end.

(** [x in l] for a Python list [l]. *)
Definition py_in (x : pyval) (l : list pyval) : bool :=
  existsb (fun e => py_eq x e) l.

(** A decoded JSON document at top level: an object with string keys, or
    any other value. The first binding of a key is the one [d[k]] reads. *)
Inductive json : Type :=
| JObject (items : list (string * pyval))
| JValue (v : pyval).

(** ** REST documents *)

(** A field of an action; [field_value] is [None] when the field has no
    ['value'] key. *)
Record Field : Type := {
  field_name : string;
  field_value : option pyval;
}.

Record Action : Type := {
  action_name : string;
  action_method : string;
  action_href : string;
  action_type : string;
  action_fields : list Field;
}.

(** The detail document of an entity. A key that is absent is [None]. *)
Record Document : Type := {
  doc_actions : option (list Action);
  doc_blocked_actions : option (list Action);
}.

(** [properties] of an entity. [prop_alias] is [None] when the key is
    absent, [Some None] for JSON null, [Some (Some s)] for a string. *)
Record Properties : Type := {
  prop_name : string;
  prop_alias : option (option string);
  prop_state : option pyval;
}.

Record Entity : Type := {
  entity_href : string;
  entity_properties : Properties;
}.

(** A [requests.Response]: its status code and what [.json()] gives
    ([None] when the body does not decode). *)
Record Response : Type := {
  status_code : Z;
  response_json : option Document;
}.

(** ** Exceptions *)

(** [TimeoutError] and [ApplicationError] are the classes of this module;
    their message is kept as the format string with the arguments of
    [str.format]. [HTTPError] is what [raise_for_status] raises;
    [RequestException] stands for a failure of the transport itself. *)
Inductive exn : Type :=
| KeyError (key : string)
| TypeError
| ValueError
| JSONDecodeError
| RequestException
| UnboundLocalError (var : string)
| HTTPError (r : Response)
| TimeoutError (fmt : string) (args : list pyval)
| ApplicationError (fmt : string) (args : list pyval).

(** [isinstance(e, GaiaError)]: the module derives [TimeoutError] and
    [ApplicationError] from its base class [GaiaError]; the other
    exceptions are those of Python and of the requests library. *)
Definition is_GaiaError (e : exn) : bool :=
  match e with
  | TimeoutError _ _ | ApplicationError _ _ => true
  | _ => false
  end.

Definition result (A : Type) : Type := exn + A.

Definition ret {A} (a : A) : result A := inr a.
Definition raise {A} (e : exn) : result A := inl e.
Definition bind {A B} (m : result A) (k : A → result B) : result B :=
  match m with
  | inl e => inl e
  | inr a => k a
  end.

Notation "'let*' x := m 'in' k" := (bind m (fun x => k))
  (at level 10, x name, m at level 100, k at level 200, only parsing).

(** [d[k]] on a decoded document: [KeyError] when the key is missing,
    [TypeError] when the document is not an object. *)
Fixpoint assoc (k : string) (items : list (string * pyval)) : option pyval :=
  match items with
  | [] => None
  | (k', v) :: rest => if String.eqb k k' then Some v else assoc k rest
  end.

Definition getitem (d : json) (k : string) : result pyval :=
  match d with
  | JObject items =>
      match assoc k items with
      | Some v => ret v
      | None => raise (KeyError k)
      end
  | JValue _ => raise TypeError
  end.

(** ** The client object *)

Definition loc := nat.

(** An entry of [app_wait_list]: the dict built by [app_wait_event]. The
    event and the queue are references into the store. *)
Record WaitRequest : Type := {
  wr_name : string;
  wr_state : list pyval;
  wr_wait_event : loc;
  wr_resolved_state : loc;
}.

(** What [_get_fields] returns: one of the two closures, with the action
    it captured. *)
Inductive Callable : Type :=
| post_func (action : Action)
| get_func (action : Action).

Record Application : Type := {
  app_actions : gmap string Callable;
  app_properties : Properties;
}.

(** The fields of [Client] and the store of the [threading.Event] and
    [queue.Queue] objects created by [app_wait_event]. *)
Record Client : Type := {
  app_wait_list : list WaitRequest;
  wait_closing_event : bool;
  wait_ready_event : bool;
  wait_not_ready_event : bool;
  applications : gmap string Application;
  state_triggers : gmap string Callable;
  events : gmap loc bool;
  queues : gmap loc (list pyval);
}.

Definition with_app_wait_list (l : list WaitRequest) (self : Client) : Client :=
  {| app_wait_list := l;
     wait_closing_event := wait_closing_event self;
     wait_ready_event := wait_ready_event self;
     wait_not_ready_event := wait_not_ready_event self;
     applications := applications self;
     state_triggers := state_triggers self;
     events := events self;
     queues := queues self |}.

Definition with_events (ev : gmap loc bool) (self : Client) : Client :=
  {| app_wait_list := app_wait_list self;
     wait_closing_event := wait_closing_event self;
     wait_ready_event := wait_ready_event self;
     wait_not_ready_event := wait_not_ready_event self;
     applications := applications self;
     state_triggers := state_triggers self;
     events := ev;
     queues := queues self |}.

Definition with_queues (qs : gmap loc (list pyval)) (self : Client) : Client :=
  {| app_wait_list := app_wait_list self;
     wait_closing_event := wait_closing_event self;
     wait_ready_event := wait_ready_event self;
     wait_not_ready_event := wait_not_ready_event self;
     applications := applications self;
     state_triggers := state_triggers self;
     events := events self;
     queues := qs |}.

Definition with_signals (closing ready not_ready : bool) (self : Client) : Client :=
  {| app_wait_list := app_wait_list self;
     wait_closing_event := closing;
     wait_ready_event := ready;
     wait_not_ready_event := not_ready;
     applications := applications self;
     state_triggers := state_triggers self;
     events := events self;
     queues := queues self |}.

(** [e.is_set()], [e.set()], [q.put(v)], [q.empty()] and the content of a
    queue. A location that was never allocated reads as an unset event and
    an empty queue. *)
Definition event_is_set (self : Client) (e : loc) : bool :=
  default false (events self !! e).

Definition event_set (e : loc) (self : Client) : Client :=
  with_events (<[e := true]> (events self)) self.

Definition queue_items (self : Client) (q : loc) : list pyval :=
  default [] (queues self !! q).

Definition queue_put (q : loc) (v : pyval) (self : Client) : Client :=
  with_queues (<[q := queue_items self q ++ [v]]> (queues self)) self.

Definition queue_empty (self : Client) (q : loc) : bool :=
  match queue_items self q with
  | [] => true
  | _ :: _ => false
  end.

(** ** Machine signal tracker *)

(** The three [threading.Event] objects of the machine. *)
Inductive signal : Type :=
| WaitClosing
| WaitReady
| WaitNotReady.

(** [signal.set()] when [b] is true, [signal.clear()] otherwise. *)
Definition signal_write (s : signal) (b : bool) (self : Client) : Client :=
  match s with
  | WaitClosing =>
      with_signals b (wait_ready_event self) (wait_not_ready_event self) self
  | WaitReady =>
      with_signals (wait_closing_event self) b (wait_not_ready_event self) self
  | WaitNotReady =>
      with_signals (wait_closing_event self) (wait_ready_event self) b self
  end.

(** The calls that [on_status_message] makes on the signals, in the order
    of the source. [message] is the outcome of [json.loads] ([None] when it
    raises). The callback receives the decoded dict itself, so it returns
    the dict as it leaves it, or the exception it raises. Every exception
    is caught and printed; all of them are raised before the first call on
    a signal. The signals are not protected by a lock: a thread that waits
    for one of them may run between any two calls. *)
Definition on_status_message_ops
    (machine_state_callback : option (json → result json))
    (message : option json) : list (signal * bool) :=
  match message with
  | None => []
  | Some message =>
      let called :=
        match machine_state_callback with
        | Some callback => callback message
        | None => ret message
        end in
      match called with
      | inl _ => []
      | inr message =>
          match getitem message "state" with
          | inl _ => []
          | inr state =>
              (if py_eq state (PyStr "Ready")
               then [(WaitReady, true); (WaitNotReady, false)]
               else [(WaitReady, false); (WaitNotReady, true)])
              ++ (if py_eq state (PyStr "Closing") || py_eq state (PyStr "Ready")
                  then [(WaitClosing, true)]
                  else [(WaitClosing, false)])
          end
      end
  end.

Definition run_signal_ops (ops : list (signal * bool)) (self : Client) : Client :=
  foldl (λ self o, signal_write o.1 o.2 self) self ops.

(** The states the client goes through while the calls [ops] are made:
    the state before the first call and the state after each call. *)
Fixpoint signal_states (ops : list (signal * bool)) (self : Client)
    : list Client :=
  self :: match ops with
          | [] => []
          | o :: rest => signal_states rest (signal_write o.1 o.2 self)
          end.

(** [on_status_message], from the message to the state it leaves. *)
Definition on_status_message
    (machine_state_callback : option (json → result json))
    (message : option json) (self : Client) : Client :=
  run_signal_ops (on_status_message_ops machine_state_callback message) self.

(** ** Application wait engine *)

(** The states that stop a wait when [stop_wait_on_error] is set. *)
Definition error_states : list pyval :=
  [PyStr "error"; PyStr "Error"; PyStr "ErrorState"].

(** [==] on two entries of [app_wait_list] (dicts with the same four keys):
    the names and the state lists by [==], the event and the queue by
    identity, which is what [==] is on these objects. *)
Definition waitrequest_eq (a b : WaitRequest) : bool :=
  py_eq (PyStr (wr_name a)) (PyStr (wr_name b))
  && py_eq (PyList (wr_state a)) (PyList (wr_state b))
  && Nat.eqb (wr_wait_event a) (wr_wait_event b)
  && Nat.eqb (wr_resolved_state a) (wr_resolved_state b).

(** [l.remove(item)]: drops the first element equal to [item];
    [ValueError] when there is none. *)
Fixpoint list_remove (item : WaitRequest) (l : list WaitRequest)
    : result (list WaitRequest) :=
  match l with
  | [] => raise ValueError
  | x :: rest =>
      if waitrequest_eq x item then ret rest
      else let* rest' := list_remove item rest in ret (x :: rest')
  end.

(** *** Calls on the shared objects *)

(** What a thread of the wait engine does to the objects it shares with
    the other threads, one call at a time. Each call is atomic; a caller
    blocked in [Event.wait] takes no lock, so it may be woken, and go on,
    between any two calls of another thread. *)
Inductive op : Type :=
| EventNew (e : loc)
| QueueNew (q : loc)
| QueuePut (q : loc) (v : pyval)
| EventSet (e : loc)
| ListAppend (w : WaitRequest)
| ListRemove (item : WaitRequest).

(** One call: [threading.Event()] and [queue.Queue()] at a given location,
    [q.put(v)], [e.set()], [self.app_wait_list.append(w)] and
    [self.app_wait_list.remove(item)], the only one that may raise. *)
Definition do_op (o : op) (self : Client) : result Client :=
  match o with
  | EventNew e => ret (with_events (<[e := false]> (events self)) self)
  | QueueNew q => ret (with_queues (<[q := []]> (queues self)) self)
  | QueuePut q v => ret (queue_put q v self)
  | EventSet e => ret (event_set e self)
  | ListAppend w =>
      ret (with_app_wait_list (app_wait_list self ++ [w]) self)
  | ListRemove item =>
      let* l := list_remove item (app_wait_list self) in
      ret (with_app_wait_list l self)
  end.

(** The calls [ops] in turn, up to the first one that raises. *)
Fixpoint run_ops (ops : list op) (self : Client) : Client * result unit :=
  match ops with
  | [] => (self, ret tt)
  | o :: rest =>
      match do_op o self with
      | inl e => (self, raise e)
      | inr self => run_ops rest self
      end
  end.

(** The states the client goes through while the calls [ops] are made:
    the state before the first call and the state after each call. *)
Fixpoint states_of (ops : list op) (self : Client) : list Client :=
  self :: match ops with
          | [] => []
          | o :: rest =>
              match do_op o self with
              | inl _ => []
              | inr self => states_of rest self
              end
          end.

(** *** Registration *)

(** The calls that [app_wait_event] makes, in the order of the source,
    and what it returns. The event and the queue are created first, at
    locations the store does not use yet; the lookup
    [self.applications[name]['properties']['state']] may raise [KeyError].
    The value returned is the pair [(wait_event, resolved_state)]. *)
Definition app_wait_event_ops (name : string) (state : pyval)
    (stop_wait_on_error : bool) (self : Client)
    : list op * result (loc * loc) :=
  let wait_event := fresh (dom (events self)) in
  let states := [state] in
  let resolved_state := fresh (dom (queues self)) in
  let created := [EventNew wait_event; QueueNew resolved_state] in
  let states := if stop_wait_on_error then states ++ error_states else states in
  match applications self !! name with
  | None => (created, raise (KeyError name))
  | Some app =>
      match prop_state (app_properties app) with
      | None => (created, raise (KeyError "state"))
      | Some current_state =>
          if py_in current_state states
          then
            (created ++ [QueuePut resolved_state current_state;
                         EventSet wait_event],
             ret (wait_event, resolved_state))
          else
            (created ++
               [ListAppend {| wr_name := name; wr_state := states;
                              wr_wait_event := wait_event;
                              wr_resolved_state := resolved_state |}],
             ret (wait_event, resolved_state))
      end
  end.

(** [app_wait_event], from the call to its return. *)
Definition app_wait_event (name : string) (state : pyval)
    (stop_wait_on_error : bool) (self : Client) : Client * result (loc * loc) :=
  let called := app_wait_event_ops name state stop_wait_on_error self in
  (fst (run_ops (fst called) self), snd called).

(** *** The listener *)

(** The first loop of [on_app_message], over the entries [apps] still to
    visit; [remove_these] is the list built so far. Gives the calls made
    on the queues and the events, and the list built or the exception
    raised. *)
Fixpoint scan_wait_list (message : json) (apps : list WaitRequest)
    (remove_these : list WaitRequest) : list op * result (list WaitRequest) :=
  match apps with
  | [] => ([], ret remove_these)
  | app :: rest =>
      match getitem message "name" with
      | inl e => ([], raise e)
      | inr name =>
          if py_eq (PyStr (wr_name app)) name then
            match getitem message "value" with
            | inl e => ([], raise e)
            | inr value =>
                if py_eq (PyList (wr_state app)) value then
                  let scanned :=
                    scan_wait_list message rest (remove_these ++ [app]) in
                  (QueuePut (wr_resolved_state app) value
                     :: EventSet (wr_wait_event app)
                     :: fst scanned,
                   snd scanned)
                else scan_wait_list message rest remove_these
            end
          else scan_wait_list message rest remove_these
      end
  end.

(** The calls that [on_app_message] makes: those of the first loop, then
    [self.app_wait_list.remove(item)] for each item of the second.
    [message] is the outcome of [json.loads] ([None] when it raises). *)
Definition on_app_message_ops (message : option json) (self : Client)
    : list op :=
  match message with
  | None => []
  | Some message =>
      match scan_wait_list message (app_wait_list self) [] with
      | (ops, inl _) => ops
      | (ops, inr remove_these) => ops ++ (ListRemove <$> remove_these)
      end
  end.

(** [on_app_message], from the message to the state it leaves. The
    [except] clause logs the exception; the client keeps the state it had
    when the exception was raised. *)
Definition on_app_message (message : option json) (self : Client) : Client :=
  fst (run_ops (on_app_message_ops message self) self).

(** *** Waiting *)

(** What the other threads do while a caller is blocked: the listener
    handles an application message, or another caller registers a wait.
    The calls of two of them are taken one thread after the other: the
    listener holds the lock of the list from its first call to its last,
    and a registration touches, outside the lock, only the event and the
    queue that it has just created. *)
Inductive activity : Type :=
| Listener (message : option json)
| OtherCaller (name : string) (state : pyval) (stop_wait_on_error : bool).

Definition activity_ops (a : activity) (self : Client) : list op :=
  match a with
  | Listener message => on_app_message_ops message self
  | OtherCaller name state stop => fst (app_wait_event_ops name state stop self)
  end.

Definition run_activity (a : activity) (self : Client) : Client :=
  match a with
  | Listener message => on_app_message message self
  | OtherCaller name state stop => fst (app_wait_event name state stop self)
  end.

(** A caller blocked on the event [e] while another thread makes the
    calls [ops]: it is woken by the first call that leaves the flag set,
    and [Some] gives the calls that the other thread has still to make at
    that moment; [None] when the flag is not set by any of them. *)
Fixpoint wait_during (e : loc) (ops : list op) (self : Client)
    : Client * option (list op) :=
  match ops with
  | [] => (self, None)
  | o :: rest =>
      match do_op o self with
      | inl _ => (self, None)
      | inr self =>
          if event_is_set self e then (self, Some rest)
          else wait_during e rest self
      end
  end.

(** [e.wait(timeout)], for a deadline that [Event.wait] accepts. The
    deadline is not interpreted: [others] lists what the other threads do
    before it expires (everything they ever do when [timeout] is [None]).
    The caller gets [True] at once when the flag is set, and otherwise as
    soon as a call of another thread sets it; the third component is what
    that thread has still to do with the objects when the caller goes on.
    At the deadline the caller gets [False]; without a deadline and with
    the flag never set the call does not return ([None]). *)
Fixpoint event_wait_ops (e : loc) (timeout : option Z) (others : list activity)
    (self : Client) : Client * option bool * list op :=
  if event_is_set self e then (self, Some true, [])
  else
    match others with
    | [] =>
        (self, match timeout with Some _ => Some false | None => None end, [])
    | a :: rest =>
        match wait_during e (activity_ops a self) self with
        | (self, Some remaining) => (self, Some true, remaining)
        | (self, None) => event_wait_ops e timeout rest self
        end
    end.

(** [e.wait(timeout)]: the state in which the caller goes on, and the
    value it gets. *)
Definition event_wait (e : loc) (timeout : option Z) (others : list activity)
    (self : Client) : Client * option bool :=
  fst (event_wait_ops e timeout others self).

(** [q.get()]: takes the oldest item; blocks ([None]) on an empty queue. *)
Definition queue_get (q : loc) (self : Client) : option (pyval * Client) :=
  match queue_items self q with
  | [] => None
  | v :: rest => Some (v, with_queues (<[q := rest]> (queues self)) self)
  end.

Definition timeout_fmt : string :=
  "Timeout while waiting for the state '{}' for the application '{}'".

Definition application_fmt : string :=
  "The application '{}' waiting for the state '{}' went to state '{}'".

(** [wait_app_state]. The result is [None] when the call never returns,
    [Some (inr tt)] when it returns, [Some (inl e)] when it raises [e].
    The caller tests and reads the queue in the state in which it is
    woken; the client returned is the one left when the thread that woke
    it has made its remaining calls. *)
Definition wait_app_state (name : string) (state : pyval) (timeout : option Z)
    (others : list activity) (self : Client) : Client * option (result unit) :=
  match app_wait_event name state true self with
  | (self, inl e) => (self, Some (raise e))
  | (self, inr (wait_event, resolved_state)) =>
      match event_wait_ops wait_event timeout others self with
      | (self, None, _) => (self, None)
      | (self, Some false, _) =>
          (self, Some (raise (TimeoutError timeout_fmt [state; PyStr name])))
      | (self, Some true, remaining) =>
          if queue_empty self resolved_state
          then (fst (run_ops remaining self), Some (ret tt))
          else
            match queue_get resolved_state self with
            | None => (self, None)
            | Some (current_state, self) =>
                let self := fst (run_ops remaining self) in
                if negb (py_eq current_state state)
                then (self, Some (raise (ApplicationError application_fmt
                                           [PyStr name; state; current_state])))
                else (self, Some (ret tt))
            end
      end
  end.

(** ** Hypermedia resolver and actions *)

(** [self.requests]: [get(url, headers)] and [post(url, headers, json)],
    each giving a response or raising. *)
Record Requests : Type := {
  requests_get : string → gmap string string → result Response;
  requests_post :
    string → gmap string string → gmap string pyval → result Response;
}.

(** [Response.raise_for_status] of the requests library: [HTTPError] for
    a status code from 400 to 599 (client and server errors), nothing
    otherwise. *)
Definition error_status (r : Response) : bool :=
  (400 <=? status_code r) && (status_code r <? 600).

Definition raise_for_status (r : Response) : result unit :=
  if error_status r then raise (HTTPError r) else ret tt.

(** The first loop of [post_func]: the fields whose value the API
    defines. *)
Definition static_fields (action : Action) : gmap string pyval :=
  foldl (fun (fields : gmap string pyval) field =>
           match field_value field with
           | Some value => <[field_name field := value]> fields
           | None => fields
           end) ∅ (action_fields action).

(** The body of [post_func], for the captured [action];
    [fields.update(kwargs)] is the union in which [kwargs] wins. *)
Definition call_post_func (requests : Requests) (action : Action)
    (kwargs : gmap string pyval) : result unit :=
  let fields := static_fields action in
  let fields := kwargs ∪ fields in
  let* request :=
    requests_post requests (action_href action)
      {[ "Content-type" := action_type action ]} fields in
  let* _ := raise_for_status request in
  ret tt.

(** The body of [get_func]. *)
Definition call_get_func (requests : Requests) (action : Action)
    : result Response :=
  let* request :=
    requests_get requests (action_href action)
      {[ "Content-type" := action_type action ]} in
  let* _ := raise_for_status request in
  ret request.

(** Calling an entry of an action map with keyword arguments. [post_func]
    returns [None]; [get_func] takes no argument and returns the response. *)
Definition call (requests : Requests) (f : Callable)
    (kwargs : gmap string pyval) : result (option Response) :=
  match f with
  | post_func action =>
      let* _ := call_post_func requests action kwargs in ret None
  | get_func action =>
      if decide (kwargs = ∅)
      then let* r := call_get_func requests action in ret (Some r)
      else raise TypeError
  end.

Definition _get_fields (action : Action) : Callable :=
  if String.eqb (action_method action) "POST"
  then post_func action
  else get_func action.

Definition add_actions (actions : gmap string Callable) (l : list Action)
    : gmap string Callable :=
  foldl (fun actions action =>
           <[action_name action := _get_fields action]> actions) actions l.

(** [_get_actions]. When the fetch or the decoding raises, the [except]
    clause prints the entity and execution goes on to read
    [entity_details], which was never assigned. (Output on stdout is not
    part of the model.) *)
Definition _get_actions (requests : Requests) (entity : Entity)
    : result (gmap string Callable) :=
  let actions : gmap string Callable := ∅ in
  let fetched :=
    let* r := requests_get requests (entity_href entity) ∅ in
    match response_json r with
    | Some d => ret d
    | None => raise JSONDecodeError
    end in
  match fetched with
  | inl _ => raise (UnboundLocalError "entity_details")
  | inr entity_details =>
      match doc_actions entity_details with
      | None => raise (KeyError "actions")
      | Some l =>
          let actions := add_actions actions l in
          match doc_blocked_actions entity_details with
          | Some blocked => ret (add_actions actions blocked)
          | None => ret actions
          end
      end
  end.

(** Truth value of [entity['properties']['alias']]: null and the empty
    string are false. *)
Definition alias_key (alias : option string) : option string :=
  match alias with
  | Some a => if String.eqb a "" then None else Some a
  | None => None
  end.

(** The body of the loop over the entities in [__init__]. *)
Definition register_entity (requests : Requests) (entity : Entity)
    (apps : gmap string Application) : result (gmap string Application) :=
  let properties := entity_properties entity in
  match apps !! prop_name properties with
  | Some _ =>
      match prop_alias properties with
      | None => raise (KeyError "alias")
      | Some alias =>
          match alias_key alias with
          | Some key =>
              let* actions := _get_actions requests entity in
              ret (<[key := {| app_actions := actions;
                               app_properties := properties |}]> apps)
          | None => ret apps
          end
      end
  | None =>
      let* actions := _get_actions requests entity in
      ret (<[prop_name properties :=
               {| app_actions := actions; app_properties := properties |}]> apps)
  end.

Fixpoint register_entities (requests : Requests) (entities : list Entity)
    (apps : gmap string Application) : result (gmap string Application) :=
  match entities with
  | [] => ret apps
  | entity :: rest =>
      let* apps := register_entity requests entity apps in
      register_entities requests rest apps
  end.

(** The part of [__init__] that builds the object, after the two listener
    threads are started: [entities] is what [_get_entities] returns for
    [/api/applications], [root] the document of [/api] seen as an entity. *)
Definition __init__ (requests : Requests) (entities : list Entity) (root : Entity)
    : result Client :=
  let* apps := register_entities requests entities ∅ in
  let* triggers := _get_actions requests root in
  ret {| app_wait_list := [];
         wait_closing_event := false;
         wait_ready_event := false;
         wait_not_ready_event := false;
         applications := apps;
         state_triggers := triggers;
         events := ∅;
         queues := ∅ |}.

(** ** Predicates used in the statements *)

(** The test of the first loop of [on_app_message] on an entry, for a
    message whose name and value are [name] and [value]. *)
Definition resolves (name value : pyval) (app : WaitRequest) : bool :=
  py_eq (PyStr (wr_name app)) name && py_eq (PyList (wr_state app)) value.

(** What the first loop does to an entry that passes the test. *)
Definition resolve (value : pyval) (self : Client) (app : WaitRequest) : Client :=
  event_set (wr_wait_event app) (queue_put (wr_resolved_state app) value self).

(** The calls of the first loop for an entry that passes the test: the
    value is queued, then the event is set. *)
Definition resolve_ops (value : pyval) (app : WaitRequest) : list op :=
  [QueuePut (wr_resolved_state app) value; EventSet (wr_wait_event app)].

(** A call that creates, sets or fills neither the event [e] nor the
    queue [q]. *)
Definition op_avoids (e q : loc) (o : op) : Prop :=
  match o with
  | EventNew e' | EventSet e' => e' ≠ e
  | QueueNew q' | QueuePut q' _ => q' ≠ q
  | ListAppend _ | ListRemove _ => True
  end.

(** An entry waits for the message: same application name, and the value
    is one of its acceptable states. *)
Definition awaits (name value : pyval) (app : WaitRequest) : bool :=
  py_eq (PyStr (wr_name app)) name && py_in value (wr_state app).

(** The pending entries own their event and their queue: no two entries
    share one, the events are not set and the queues are empty. *)
Definition pending_ok (self : Client) : Prop :=
  NoDup (wr_wait_event <$> app_wait_list self)
  ∧ NoDup (wr_resolved_state <$> app_wait_list self)
  ∧ ∀ w, w ∈ app_wait_list self →
      events self !! wr_wait_event w = Some false
      ∧ queues self !! wr_resolved_state w = Some [].

(** The client after the other threads have done [others]. *)
Definition run (others : list activity) (self : Client) : Client :=
  foldl (λ self a, run_activity a self) self others.

(** Every state the client goes through while the other threads do
    [others], call by call: these are the states in which a caller
    blocked on an event may be woken, or may look at a queue. *)
Fixpoint history (others : list activity) (self : Client) : list Client :=
  match others with
  | [] => [self]
  | a :: rest =>
      states_of (activity_ops a self) self ++ history rest (run_activity a self)
  end.

(** A success status, in the words of the specification: the codes 200
    to 299. *)
Definition success_status (r : Response) : bool :=
  (200 <=? status_code r) && (status_code r <? 300).

(** The static default of the key [k], in the words of the
    specification: the value carried by a field named [k], the last such
    field when several carry one; none when no field named [k] carries a
    value. *)
Fixpoint static_default (k : string) (fields : list Field) : option pyval :=
  match fields with
  | [] => None
  | field :: rest =>
      match static_default k rest with
      | Some v => Some v
      | None =>
          if String.eqb (field_name field) k then field_value field else None
      end
  end.

(** The states a client goes through: built by [__init__], then changed
    by the two listeners and by the callers of [app_wait_event] and
    [wait_app_state]. *)
Inductive reachable : Client → Prop :=
| reachable_init requests entities root self :
    __init__ requests entities root = inr self → reachable self
| reachable_status callback message self :
    reachable self → reachable (on_status_message callback message self)
| reachable_app message self :
    reachable self → reachable (on_app_message message self)
| reachable_register name state stop self :
    reachable self → reachable (fst (app_wait_event name state stop self))
| reachable_wait name state timeout others self :
    reachable self →
    reachable (fst (wait_app_state name state timeout others self)).

(** ** A client used in the examples *)

(** Two applications: [app1] is stopped, [app2] is in an error state. *)
Definition example_applications : gmap string Application :=
  <["app1" := {| app_actions := ∅;
                 app_properties := {| prop_name := "app1";
                                      prop_alias := Some None;
                                      prop_state := Some (PyStr "Stopped") |} |}]>
  (<["app2" := {| app_actions := ∅;
                  app_properties := {| prop_name := "app2";
                                       prop_alias := Some None;
                                       prop_state := Some (PyStr "Error") |} |}]>
   ∅).

Definition example_client : Client :=
  {| app_wait_list := [];
     wait_closing_event := false;
     wait_ready_event := false;
     wait_not_ready_event := false;
     applications := example_applications;
     state_triggers := ∅;
     events := ∅;
     queues := ∅ |}.

(** The client after two callers have registered a wait for
    [("app1", "Running")] with [stop_wait_on_error] set, as
    [wait_app_state] does. *)
Definition two_waiters : Client :=
  fst (app_wait_event "app1" (PyStr "Running") true
         (fst (app_wait_event "app1" (PyStr "Running") true example_client))).

Definition running_message : json :=
  JObject [("name", PyStr "app1"); ("value", PyStr "Running")].

Definition three_waiters : Client :=
  fst (app_wait_event "app1" (PyStr "Idle") false two_waiters).

Definition idle_list_message : json :=
  JObject [("name", PyStr "app1"); ("value", PyList [PyStr "Idle"])].

(** ** A machine used in the examples *)

Definition start_action : Action :=
  {| action_name := "start"; action_method := "POST";
     action_href := "/apps/1/start"; action_type := "application/json";
     action_fields :=
       [{| field_name := "mode"; field_value := Some (PyStr "auto") |};
        {| field_name := "speed"; field_value := None |}] |}.

Definition status_action : Action :=
  {| action_name := "status"; action_method := "GET";
     action_href := "/apps/1/status"; action_type := "application/json";
     action_fields := [] |}.

Definition stop_action : Action :=
  {| action_name := "stop"; action_method := "POST";
     action_href := "/apps/2/stop"; action_type := "application/json";
     action_fields := [] |}.

Definition ok_response (d : option Document) : Response :=
  {| status_code := 200; response_json := d |}.

(** [/apps/1] and [/apps/2] have a detail document, the body of
    [/apps/3] is not JSON, [/apps/1/status] answers 404, any other GET
    fails; every POST answers 200. *)
Definition example_requests : Requests :=
  {| requests_get := λ url _,
       if String.eqb url "/apps/1" then
         ret (ok_response
                (Some {| doc_actions := Some [start_action; status_action];
                         doc_blocked_actions := None |}))
       else if String.eqb url "/apps/2" then
         ret (ok_response
                (Some {| doc_actions := Some [stop_action];
                         doc_blocked_actions := None |}))
       else if String.eqb url "/apps/3" then ret (ok_response None)
       else if String.eqb url "/apps/1/status" then
         ret {| status_code := 404; response_json := None |}
       else raise RequestException;
     requests_post := λ _ _ _, ret (ok_response None) |}.

Definition example_entity (href name : string) (alias : option string)
    : Entity :=
  {| entity_href := href;
     entity_properties :=
       {| prop_name := name; prop_alias := Some alias;
          prop_state := Some (PyStr "Stopped") |} |}.

(** ** Induction on Python values, through the lists they contain *)

Section pyval_induction.
Variable P : pyval → Prop.
Hypothesis HNone : P PyNone.
Hypothesis HBool : ∀ b, P (PyBool b).
Hypothesis HInt : ∀ z, P (PyInt z).
Hypothesis HStr : ∀ s, P (PyStr s).
Hypothesis HList : ∀ l, Forall P l → P (PyList l).

Fixpoint pyval_nested_ind (v : pyval) : P v :=
    match v with
    | PyNone => HNone
    | PyBool b => HBool b
    | PyInt z => HInt z
    | PyStr s => HStr s
    | PyList l =>
        HList l
          ((fix all (l : list pyval) : Forall P l :=
              match l with
              | [] => @List.Forall_nil _ P
              | x :: r => @List.Forall_cons _ P x r (pyval_nested_ind x) (all r)
              end) l)
    end.
End pyval_induction.

(** ** The address and the two socket URLs *)

(** [sub in s] on strings. Strings are sequences of bytes here; for UTF-8
    text and the ASCII patterns of [__init__] this is the test Python makes
    on code points. *)
Fixpoint str_in (sub s : string) : bool :=
  String.prefix sub s
  || match s with
     | EmptyString => false
     | String _ rest => str_in sub rest
     end.

(** [prependurl], local to [__init__]. *)
Definition prependurl (url : string) : string :=
  if str_in "://" url then url else "http://" ++ url.

Definition in_chars (c : Ascii.ascii) (chars : string) : bool :=
  existsb (Ascii.eqb c) (list_ascii_of_string chars).

(** [s.lstrip(chars)], [s.rstrip(chars)] and [s.strip(chars)]: [chars] is
    a set of characters, removed from the ends as long as they occur. *)
Fixpoint lstrip (chars s : string) : string :=
  match s with
  | EmptyString => EmptyString
  | String c rest => if in_chars c chars then lstrip chars rest else s
  end.

Fixpoint rstrip (chars s : string) : string :=
  match s with
  | EmptyString => EmptyString
  | String c rest =>
      match rstrip chars rest with
      | EmptyString => if in_chars c chars then EmptyString else String c EmptyString
      | kept => String c kept
      end
  end.

Definition strip (chars s : string) : string := rstrip chars (lstrip chars s).

(** The URLs of the two [WebSocketApp]s, for [address] as [prependurl]
    returns it. *)
Definition state_socket_url (address : string) : string :=
  "ws://" ++ strip "http://" address ++ "/websocket/state".

Definition applications_socket_url (address : string) : string :=
  "ws://" ++ strip "http://" address ++ "/websocket/applications".

(** A string keeps its ends under [strip chars]: it is empty, or neither
    its first nor its last character is in [chars]. *)
Fixpoint last_char (s : string) : option Ascii.ascii :=
  match s with
  | EmptyString => None
  | String c rest =>
      match last_char rest with
      | Some d => Some d
      | None => Some c
      end
  end.

Definition keeps_ends (chars s : string) : bool :=
  match s with
  | EmptyString => true
  | String c _ =>
      negb (in_chars c chars)
      && match last_char s with
         | Some d => negb (in_chars d chars)
         | None => true
         end
  end.

(** ** Reading the machine and waiting for its signals *)

(** The document of [GET /api], decoded; [api_properties] is [None] when
    it has no ['properties'] key. Each of the properties below performs
    its own read: its argument [api] is the outcome of
    [self.requests.get(self.address + '/api').json()] at that moment. *)
Record ApiDocument : Type := {
  api_properties : option json;
}.

Definition properties (api : result ApiDocument) : result json :=
  let* document := api in
  match api_properties document with
  | Some p => ret p
  | None => raise (KeyError "properties")
  end.

Definition state (api : result ApiDocument) : result pyval :=
  let* document := api in
  match api_properties document with
  | Some p => getitem p "state"
  | None => raise (KeyError "properties")
  end.

Definition ready_for_testing (api : result ApiDocument) : result bool :=
  let* s := state api in ret (py_eq s (PyStr "Ready")).

(** [test_box_closing] reads the state, and reads it again through
    [ready_for_testing] when the first read is not 'Closing'. *)
Definition test_box_closing (api1 api2 : result ApiDocument) : result bool :=
  let* s := state api1 in
  if py_eq s (PyStr "Closing") then ret true else ready_for_testing api2.

(** [signal.wait(timeout)] on one of the three machine signals, while the
    status listener handles [messages] (those that arrive before the
    deadline). [None]: the call does not return. *)
Fixpoint signal_wait (signal : Client → bool) (timeout : option Z)
    (machine_state_callback : option (json → result json))
    (messages : list (option json)) (self : Client) : Client * option bool :=
  if signal self then (self, Some true)
  else
    match messages with
    | [] => (self, match timeout with Some _ => Some false | None => None end)
    | m :: rest =>
        signal_wait signal timeout machine_state_callback rest
          (on_status_message machine_state_callback m self)
    end.

Definition wait_ready (api : result ApiDocument) (timeout : option Z)
    (machine_state_callback : option (json → result json))
    (messages : list (option json)) (self : Client)
    : Client * option (result bool) :=
  match ready_for_testing api with
  | inl e => (self, Some (raise e))
  | inr true => (self, Some (ret true))
  | inr false =>
      match signal_wait wait_ready_event timeout machine_state_callback
              messages self with
      | (self, r) => (self, option_map ret r)
      end
  end.

Definition wait_closing (api1 api2 : result ApiDocument) (timeout : option Z)
    (machine_state_callback : option (json → result json))
    (messages : list (option json)) (self : Client)
    : Client * option (result bool) :=
  match test_box_closing api1 api2 with
  | inl e => (self, Some (raise e))
  | inr true => (self, Some (ret true))
  | inr false =>
      match signal_wait wait_closing_event timeout machine_state_callback
              messages self with
      | (self, r) => (self, option_map ret r)
      end
  end.

Definition wait_not_ready (api : result ApiDocument) (timeout : option Z)
    (machine_state_callback : option (json → result json))
    (messages : list (option json)) (self : Client)
    : Client * option (result bool) :=
  match ready_for_testing api with
  | inl e => (self, Some (raise e))
  | inr false => (self, Some (ret true))
  | inr true =>
      match signal_wait wait_not_ready_event timeout machine_state_callback
              messages self with
      | (self, r) => (self, option_map ret r)
      end
  end.

(** The state that the status listener takes from a message: [None] when
    the message is dropped (it does not decode, the callback raises, or
    there is no ['state']). *)
Definition delivered_state
    (machine_state_callback : option (json → result json))
    (message : option json) : option pyval :=
  match message with
  | None => None
  | Some message =>
      match (match machine_state_callback with
             | Some callback => callback message
             | None => ret message
             end) with
      | inl _ => None
      | inr message =>
          match getitem message "state" with
          | inl _ => None
          | inr s => Some s
          end
      end
  end.

(** A message that the listener takes, with a state that passes [test]. *)
Definition delivers (machine_state_callback : option (json → result json))
    (test : pyval → bool) (message : option json) : bool :=
  match delivered_state machine_state_callback message with
  | Some s => test s
  | None => false
  end.

Definition is_ready (s : pyval) : bool := py_eq s (PyStr "Ready").
Definition is_not_ready (s : pyval) : bool := negb (py_eq s (PyStr "Ready")).
Definition is_closing_or_ready (s : pyval) : bool :=
  py_eq s (PyStr "Closing") || py_eq s (PyStr "Ready").

(** ** The life of a wait *)

(** A wait is pending: its entry is in the list, its event is unset and
    its queue is empty. *)
Definition handle_pending (w : WaitRequest) (self : Client) : Prop :=
  w ∈ app_wait_list self
  ∧ event_is_set self (wr_wait_event w) = false
  ∧ queue_items self (wr_resolved_state w) = [].

(** A wait is resolved with [v]: no entry of the list holds its event or
    its queue, the event is set and the queue holds [v] alone. *)
Definition handle_resolved (w : WaitRequest) (v : pyval) (self : Client)
    : Prop :=
  (∀ w', w' ∈ app_wait_list self →
     wr_wait_event w' ≠ wr_wait_event w
     ∧ wr_resolved_state w' ≠ wr_resolved_state w)
  ∧ event_is_set self (wr_wait_event w) = true
  ∧ queue_items self (wr_resolved_state w) = [v].

(** The wait is pending, or resolved with a value that satisfies [P]. *)
Definition handle_life (P : pyval → Prop) (w : WaitRequest) (self : Client)
    : Prop :=
  handle_pending w self ∨ ∃ v, handle_resolved w v self ∧ P v.

(** Size of a value; equal values have the same size. *)
Fixpoint py_size (v : pyval) : nat :=
  match v with
  | PyList l =>
      S ((fix sum (l : list pyval) : nat :=
            match l with
            | [] => 0%nat
            | x :: r => (py_size x + sum r)%nat
            end) l)
  | _ => 1%nat
  end.

(** ** The action map of a detail document *)

(** The last action of [l] named [k]. *)
Fixpoint last_named (k : string) (l : list Action) : option Action :=
  match l with
  | [] => None
  | action :: rest =>
      match last_named k rest with
      | Some a => Some a
      | None => if String.eqb (action_name action) k then Some action else None
      end
  end.

(** The key under which the loop of [__init__] may insert an entity:
    its canonical name, or its alias when that is a non-empty string. *)
Definition entity_keys (entity : Entity) : list string :=
  prop_name (entity_properties entity)
  :: match prop_alias (entity_properties entity) with
     | Some (Some a) => if String.eqb a "" then [] else [a]
     | _ => []
     end.

(** Two states of the client with the same machine signals, the same
    registry and the same state triggers. *)
Definition same_machine_side (self self' : Client) : Prop :=
  wait_closing_event self' = wait_closing_event self
  ∧ wait_ready_event self' = wait_ready_event self
  ∧ wait_not_ready_event self' = wait_not_ready_event self
  ∧ applications self' = applications self
  ∧ state_triggers self' = state_triggers self.

(** The client that [__init__] builds on the example machine, and the
    same client after the status message [{"state": "Ready"}]. *)
Definition connected_client : Client :=
  match __init__ example_requests
          [example_entity "/apps/1" "app1" None]
          (example_entity "/apps/2" "machine" None) with
  | inr self => self
  | inl _ => example_client
  end.

Definition ready_client : Client :=
  on_status_message None (Some (JObject [("state", PyStr "Ready")]))
    connected_client.

(** The same client after the status message [{"state": "Running"}]. *)
Definition running_client : Client :=
  on_status_message None (Some (JObject [("state", PyStr "Running")]))
    connected_client.


(** A transport that answers every request with [r]. *)
Definition answering (r : Response) : Requests :=
  {| requests_get := λ _ _, ret r;
     requests_post := λ _ _ _, ret r |}.

Definition not_modified : Response :=
  {| status_code := 304; response_json := None |}.

(** * Properties *)

(** ** Equality of Python values *)

Lemma py_eq_refl (v : pyval) : py_eq v v = true.
Proof.
  induction v as [| b | z | s | l IH] using pyval_nested_ind; simpl.
  - reflexivity.
  - by destruct b.
  - apply Z.eqb_refl.
  - apply String.eqb_refl.
  - induction IH as [| x r Hx _ IHr]; [reflexivity |].
    by rewrite Hx, IHr.
Qed.

Lemma py_eq_list_str (l : list pyval) (s : string) :
  py_eq (PyList l) (PyStr s) = false.
Proof. reflexivity. Qed.

Lemma py_eq_list_other (l : list pyval) (v : pyval) :
  (∀ m, v ≠ PyList m) → py_eq (PyList l) v = false.
Proof. intros Hv. destruct v as [| | | | m]; try reflexivity. by destruct (Hv m). Qed.

Lemma waitrequest_eq_refl (w : WaitRequest) : waitrequest_eq w w = true.
Proof.
  unfold waitrequest_eq.
  rewrite !py_eq_refl, !Nat.eqb_refl. reflexivity.
Qed.

Lemma waitrequest_eq_event (a b : WaitRequest) :
  waitrequest_eq a b = true → wr_wait_event a = wr_wait_event b.
Proof.
  unfold waitrequest_eq. intros H.
  apply andb_prop in H as [H _]. apply andb_prop in H as [_ H].
  by apply Nat.eqb_eq.
Qed.

(** ** Removal from a list whose events are pairwise distinct *)

Lemma NoDup_fmap_elem_inj {A B} (f : A → B) (l : list A) (x y : A) :
  NoDup (f <$> l) → x ∈ l → y ∈ l → f x = f y → x = y.
Proof.
  induction l as [| a l IH]; simpl; intros Hnd Hx Hy Hf.
  - by apply elem_of_nil in Hx.
  - apply NoDup_cons in Hnd as [Ha Hnd].
    apply elem_of_cons in Hx as [-> | Hx]; apply elem_of_cons in Hy as [-> | Hy].
    + reflexivity.
    + exfalso. apply Ha. rewrite Hf. by apply list_elem_of_fmap_2.
    + exfalso. apply Ha. rewrite <- Hf. by apply list_elem_of_fmap_2.
    + by apply IH.
Qed.

Lemma NoDup_fmap_filter {A B} (f : A → B) (P : A → Prop)
    `{∀ x, Decision (P x)} (l : list A) :
  NoDup (f <$> l) → NoDup (f <$> filter P l).
Proof.
  intros Hnd. eapply sublist_NoDup; [exact Hnd |].
  apply fmap_sublist, sublist_filter.
Qed.

Lemma filter_ext_elem {A} (P Q : A → Prop)
    `{!∀ x, Decision (P x), !∀ x, Decision (Q x)} (l : list A) :
  (∀ x, x ∈ l → P x ↔ Q x) → filter P l = filter Q l.
Proof.
  induction l as [| a l IH]; intros Hext; [reflexivity |].
  assert (filter P l = filter Q l) as Hl.
  { apply IH. intros x Hx. apply Hext. by right. }
  destruct (decide (P a)) as [Ha | Ha].
  - rewrite !filter_cons_True; [by rewrite Hl | | done].
    apply Hext; [left | done].
  - rewrite !filter_cons_False; [done | | done].
    intros HQ. apply Ha, Hext; [left | done].
Qed.

Lemma filter_all_elem {A} (P : A → Prop) `{!∀ x, Decision (P x)} (l : list A) :
  (∀ x, x ∈ l → P x) → filter P l = l.
Proof.
  induction l as [| a l IH]; intros HP; [reflexivity |].
  rewrite filter_cons_True by (apply HP; left).
  f_equal. apply IH. intros x Hx. apply HP. by right.
Qed.

Lemma filter_all_elem_none {A} (P : A → Prop) `{!∀ x, Decision (P x)}
    (l : list A) :
  (∀ x, x ∈ l → ¬ P x) → filter P l = [].
Proof.
  induction l as [| a l IH]; intros HP; [reflexivity |].
  rewrite filter_cons_False by (apply HP; left).
  apply IH. intros x Hx. apply HP. by right.
Qed.

Lemma filter_fmap_eq_singleton {A B} `{EqDecision B} (f : A → B)
    (l : list A) (w : A) :
  NoDup (f <$> l) → w ∈ l → filter (λ y, f y = f w) l = [w].
Proof.
  induction l as [| a l IH]; intros Hnd Hin.
  - by apply elem_of_nil in Hin.
  - rewrite fmap_cons in Hnd. apply NoDup_cons in Hnd as [Ha Hnd].
    apply elem_of_cons in Hin as [-> | Hin].
    + rewrite filter_cons_True by done. f_equal.
      apply filter_all_elem_none. intros y Hy Heq.
      apply Ha. rewrite <- Heq. by apply list_elem_of_fmap_2.
    + rewrite filter_cons_False; [by apply IH |].
      intros Heq. apply Ha. rewrite Heq. by apply list_elem_of_fmap_2.
Qed.

Lemma list_remove_distinct (item : WaitRequest) (l : list WaitRequest) :
  NoDup (wr_wait_event <$> l) → item ∈ l →
  list_remove item l =
    ret (filter (λ x, wr_wait_event x ≠ wr_wait_event item) l).
Proof.
  induction l as [| x l IH]; simpl; intros Hnd Hin.
  - by apply elem_of_nil in Hin.
  - apply NoDup_cons in Hnd as [Hx Hnd].
    destruct (waitrequest_eq x item) eqn:E.
    + apply waitrequest_eq_event in E.
      rewrite filter_cons_False by (intros ?; congruence).
      f_equal. symmetry. apply filter_all_elem.
      intros y Hy Heq. apply Hx. rewrite E, <- Heq.
      by apply list_elem_of_fmap_2.
    + apply elem_of_cons in Hin as [-> | Hin].
      { by rewrite waitrequest_eq_refl in E. }
      rewrite filter_cons_True.
      * rewrite IH by done. reflexivity.
      * intros Heq. apply Hx. rewrite Heq. by apply list_elem_of_fmap_2.
Qed.

(** ** Calls on the shared objects *)

Lemma run_ops_app (a b : list op) self :
  run_ops (a ++ b) self =
    match run_ops a self with
    | (self', inr _) => run_ops b self'
    | (self', inl e) => (self', inl e)
    end.
Proof.
  revert self. induction a as [| o a IH]; intros self; cbn [app run_ops].
  - reflexivity.
  - destruct (do_op o self) as [e | self']; [reflexivity | apply IH].
Qed.

Lemma states_of_head ops self : self ∈ states_of ops self.
Proof. destruct ops; left. Qed.

Lemma states_of_end ops self : fst (run_ops ops self) ∈ states_of ops self.
Proof.
  revert self. induction ops as [| o ops IH]; intros self;
    cbn [run_ops states_of]; [left |].
  destruct (do_op o self) as [err | self']; [left | right; apply IH].
Qed.

Lemma states_of_app_elem (a b : list op) self s :
  s ∈ states_of (a ++ b) self →
  s ∈ states_of a self
  ∨ (snd (run_ops a self) = ret tt ∧ s ∈ states_of b (fst (run_ops a self))).
Proof.
  revert self. induction a as [| o a IH]; intros self; cbn [app].
  - intros Hs. right. by split.
  - cbn [states_of run_ops]. intros [-> | Hs]%elem_of_cons; [left; left |].
    destruct (do_op o self) as [e | self']; [by apply elem_of_nil in Hs |].
    destruct (IH self' Hs) as [H | H]; [left; by right | by right].
Qed.

Lemma do_op_avoids e q o self self' :
  op_avoids e q o → do_op o self = inr self' →
  events self' !! e = events self !! e ∧ queues self' !! q = queues self !! q.
Proof.
  destruct o as [e' | q' | q' v | e' | w | item]; cbn; intros Ho.
  - intros [= <-]. cbn. by rewrite lookup_insert_ne.
  - intros [= <-]. cbn. by rewrite lookup_insert_ne.
  - intros [= <-]. cbn. by rewrite lookup_insert_ne.
  - intros [= <-]. cbn. by rewrite lookup_insert_ne.
  - by intros [= <-].
  - destruct (list_remove item (app_wait_list self)) as [err | l]; [done |].
    by intros [= <-].
Qed.

Lemma states_of_avoids e q ops self s :
  Forall (op_avoids e q) ops → s ∈ states_of ops self →
  events s !! e = events self !! e ∧ queues s !! q = queues self !! q.
Proof.
  intros Hops. revert self.
  induction Hops as [| o ops Ho _ IH]; intros self; cbn [states_of].
  - by intros [-> | []%elem_of_nil]%elem_of_cons.
  - intros [-> | Hs]%elem_of_cons; [done |].
    destruct (do_op o self) as [err | self'] eqn:Hdo;
      [by apply elem_of_nil in Hs |].
    destruct (do_op_avoids e q o self self' Ho Hdo) as [<- <-]. by apply IH.
Qed.

Lemma run_ops_avoids e q ops self :
  Forall (op_avoids e q) ops →
  events (fst (run_ops ops self)) !! e = events self !! e
  ∧ queues (fst (run_ops ops self)) !! q = queues self !! q.
Proof.
  intros Hops. revert self.
  induction Hops as [| o ops Ho _ IH]; intros self; cbn [run_ops]; [done |].
  destruct (do_op o self) as [err | self'] eqn:Hdo; [done |].
  destruct (do_op_avoids e q o self self' Ho Hdo) as [<- <-]. apply IH.
Qed.

(** Calls that leave a queue alone commute with what its reader does to
    it. *)
Lemma do_op_queue_commute e q (l : list pyval) o self :
  op_avoids e q o →
  do_op o (with_queues (<[q := l]> (queues self)) self) =
    match do_op o self with
    | inl err => inl err
    | inr self' => inr (with_queues (<[q := l]> (queues self')) self')
    end.
Proof.
  destruct o as [e' | q' | q' v | e' | w | item]; cbn [do_op ret op_avoids];
    intros Ho.
  - reflexivity.
  - unfold with_queues. cbn. do 2 f_equal. by apply insert_insert_ne.
  - unfold queue_put, with_queues, queue_items. cbn.
    rewrite lookup_insert_ne by done. do 2 f_equal. by apply insert_insert_ne.
  - reflexivity.
  - reflexivity.
  - cbn [app_wait_list with_queues].
    by destruct (list_remove item (app_wait_list self)) as [err | l'].
Qed.

Lemma run_ops_queue_commute e q (l : list pyval) ops self :
  Forall (op_avoids e q) ops →
  run_ops ops (with_queues (<[q := l]> (queues self)) self) =
    (with_queues (<[q := l]> (queues (fst (run_ops ops self))))
       (fst (run_ops ops self)),
     snd (run_ops ops self)).
Proof.
  intros Hops. revert self.
  induction Hops as [| o ops Ho _ IH]; intros self; cbn [run_ops]; [done |].
  rewrite (do_op_queue_commute e q l o self Ho).
  destruct (do_op o self) as [err | self']; [done |]. apply IH.
Qed.

(** A caller blocked while another thread makes calls that leave its
    event alone is not woken. *)
Lemma wait_during_avoids e q ops self :
  Forall (op_avoids e q) ops → event_is_set self e = false →
  wait_during e ops self = (fst (run_ops ops self), None).
Proof.
  intros Hops. revert self.
  induction Hops as [| o ops Ho _ IH]; intros self Hunset;
    cbn [wait_during run_ops]; [done |].
  destruct (do_op o self) as [err | self'] eqn:Hdo; [done |].
  destruct (do_op_avoids e q o self self' Ho Hdo) as [He _].
  assert (event_is_set self' e = false) as Hunset'
    by (unfold event_is_set in *; by rewrite He).
  rewrite Hunset'. by apply IH.
Qed.

(** A caller blocked while another thread queues a value and then sets
    its event is woken by that [set], after the [put]. *)
Lemma wait_during_resolve e q pre v post self :
  Forall (op_avoids e q) pre → snd (run_ops pre self) = ret tt →
  event_is_set self e = false →
  wait_during e (pre ++ [QueuePut q v; EventSet e] ++ post) self =
    (event_set e (queue_put q v (fst (run_ops pre self))), Some post).
Proof.
  intros Hpre. revert self.
  induction Hpre as [| o pre Ho _ IH]; intros self Hrun Hunset.
  - cbn [app wait_during do_op ret run_ops fst].
    change (event_is_set (queue_put q v self) e) with (event_is_set self e).
    rewrite Hunset. cbn [wait_during do_op ret].
    unfold event_is_set at 1. cbn. by rewrite lookup_insert_eq.
  - cbn [app wait_during run_ops] in *.
    destruct (do_op o self) as [err | self'] eqn:Hdo; [done |].
    destruct (do_op_avoids e q o self self' Ho Hdo) as [He _].
    assert (event_is_set self' e = false) as Hunset'
      by (unfold event_is_set in *; by rewrite He).
    rewrite Hunset'. by apply IH.
Qed.

Lemma wait_during_not_woken e ops self self' :
  event_is_set self e = false →
  wait_during e ops self = (self', None) →
  self' = fst (run_ops ops self) ∧ event_is_set self' e = false.
Proof.
  revert self. induction ops as [| o ops IH]; intros self Hunset;
    cbn [wait_during run_ops].
  - by intros [= <-].
  - destruct (do_op o self) as [err | self1]; [by intros [= <-] |].
    destruct (event_is_set self1 e) eqn:E; [done |]. by apply IH.
Qed.

Lemma wait_during_woken e ops self self' remaining :
  wait_during e ops self = (self', Some remaining) →
  event_is_set self' e = true
  ∧ self' ∈ states_of ops self
  ∧ fst (run_ops remaining self') = fst (run_ops ops self).
Proof.
  revert self. induction ops as [| o ops IH]; intros self;
    cbn [wait_during run_ops states_of]; [done |].
  destruct (do_op o self) as [err | self1]; [done |].
  destruct (event_is_set self1 e) eqn:E.
  - intros [= <- <-]. split; [done |]. split; [| done].
    right. apply states_of_head.
  - intros H. destruct (IH self1 H) as (? & ? & ?).
    split; [done |]. split; [by right | done].
Qed.

(** ** The two loops of the listener *)

Lemma resolve_app_wait_list value self app :
  app_wait_list (resolve value self app) = app_wait_list self.
Proof. reflexivity. Qed.

Lemma resolve_all_app_wait_list value items self :
  app_wait_list (foldl (resolve value) self items) = app_wait_list self.
Proof.
  revert self. induction items as [| x items IH]; intros self; simpl; [done |].
  by rewrite IH.
Qed.

Lemma resolve_all_applications value items self :
  applications (foldl (resolve value) self items) = applications self.
Proof.
  revert self. induction items as [| x items IH]; intros self; simpl; [done |].
  by rewrite IH.
Qed.

Lemma resolve_all_events value items self (e : loc) :
  events (foldl (resolve value) self items) !! e =
    if decide (e ∈ wr_wait_event <$> items) then Some true
    else events self !! e.
Proof.
  revert self. induction items as [| x items IH]; intros self.
  - cbn [foldl]. case_decide as Hin; [| done].
    rewrite fmap_nil in Hin. by apply elem_of_nil in Hin.
  - cbn [foldl]. rewrite IH, fmap_cons.
    destruct (decide (e ∈ wr_wait_event <$> items)) as [Hin | Hin].
    + rewrite decide_True; [done | by right].
    + destruct (decide (e = wr_wait_event x)) as [-> | Hne].
      * rewrite decide_True by left. apply lookup_insert_eq.
      * rewrite decide_False.
        -- cbn. by rewrite lookup_insert_ne.
        -- intros [? | ?]%elem_of_cons; done.
Qed.

Lemma resolve_all_queue_items value items self (q : loc) :
  queue_items (foldl (resolve value) self items) q =
    queue_items self q
    ++ ((λ _, value) <$> filter (λ w, wr_resolved_state w = q) items).
Proof.
  revert self. induction items as [| x items IH]; intros self; simpl.
  - by rewrite app_nil_r.
  - rewrite IH. unfold queue_items at 1. simpl.
    destruct (decide (wr_resolved_state x = q)) as [Hq | Hq].
    + rewrite filter_cons_True by done. simpl.
      rewrite Hq, lookup_insert_eq. simpl. by rewrite <- app_assoc.
    + rewrite filter_cons_False by done.
      by rewrite lookup_insert_ne.
Qed.

Lemma resolve_all_queues_other value items self (q : loc) :
  q ∉ wr_resolved_state <$> items →
  queues (foldl (resolve value) self items) !! q = queues self !! q.
Proof.
  revert self. induction items as [| x items IH]; intros self Hq; simpl; [done |].
  rewrite fmap_cons, not_elem_of_cons in Hq. destruct Hq as [Hne Hq].
  rewrite IH by done. simpl. by rewrite lookup_insert_ne.
Qed.

(** The first loop, for a message with a name and a value: the entries
    that pass the test are resolved in the order of the list, each by a
    [put] followed by a [set]. *)
Lemma scan_wait_list_ok message name value apps acc :
  getitem message "name" = inr name →
  getitem message "value" = inr value →
  scan_wait_list message apps acc =
    (flat_map (resolve_ops value) (filter (λ w, resolves name value w) apps),
     ret (acc ++ filter (λ w, resolves name value w) apps)).
Proof.
  intros Hn Hv. revert acc.
  induction apps as [| app apps IH]; intros acc; cbn [scan_wait_list].
  - by rewrite filter_nil, app_nil_r.
  - rewrite Hn.
    destruct (py_eq (PyStr (wr_name app)) name) eqn:En.
    + rewrite Hv.
      destruct (py_eq (PyList (wr_state app)) value) eqn:Ev.
      * rewrite IH. rewrite !filter_cons_True
          by (unfold resolves; rewrite En, Ev; done).
        cbn [flat_map resolve_ops List.app fst snd]. by rewrite <- app_assoc.
      * rewrite IH. rewrite !filter_cons_False
          by (unfold resolves; rewrite En, Ev; simpl; tauto).
        done.
    + rewrite IH. rewrite !filter_cons_False
        by (unfold resolves; rewrite En; simpl; tauto).
      done.
Qed.

Lemma scan_wait_list_no_value message apps acc e :
  getitem message "value" = inl e →
  fst (scan_wait_list message apps acc) = []
  ∧ (∀ l, snd (scan_wait_list message apps acc) = inr l → l = acc).
Proof.
  intros Hv. revert acc.
  induction apps as [| app apps IH]; intros acc; cbn [scan_wait_list].
  - split; [done |]. cbn. intros l [= <-]. done.
  - destruct (getitem message "name") as [e' | name]; [done |].
    destruct (py_eq (PyStr (wr_name app)) name).
    + rewrite Hv. done.
    + apply IH.
Qed.

Lemma run_ops_resolve value items self :
  run_ops (flat_map (resolve_ops value) items) self =
    (foldl (resolve value) self items, ret tt).
Proof.
  revert self. induction items as [| x items IH]; intros self; [done |].
  cbn [flat_map resolve_ops app run_ops do_op ret foldl]. by rewrite IH.
Qed.

Lemma with_app_wait_list_same self :
  with_app_wait_list (app_wait_list self) self = self.
Proof. by destruct self. Qed.

Lemma with_app_wait_list_twice a b self :
  with_app_wait_list a (with_app_wait_list b self) = with_app_wait_list a self.
Proof. reflexivity. Qed.

Lemma app_wait_list_with l self : app_wait_list (with_app_wait_list l self) = l.
Proof. reflexivity. Qed.

(** The second loop, when the items are entries of the list and no two
    entries share an event. *)
Lemma run_ops_remove_distinct items self :
  NoDup (wr_wait_event <$> app_wait_list self) →
  NoDup (wr_wait_event <$> items) →
  (∀ i, i ∈ items → i ∈ app_wait_list self) →
  run_ops (ListRemove <$> items) self =
    (with_app_wait_list
       (filter (λ x, wr_wait_event x ∉ wr_wait_event <$> items)
          (app_wait_list self)) self,
     ret tt).
Proof.
  revert self. induction items as [| item items IH]; intros self Hl Hi Hsub.
  - rewrite fmap_nil. cbn [run_ops]. rewrite filter_all_elem.
    + by rewrite with_app_wait_list_same.
    + intros x _. rewrite fmap_nil. apply not_elem_of_nil.
  - rewrite fmap_cons. cbn [run_ops do_op].
    rewrite fmap_cons in Hi. apply NoDup_cons in Hi as [Hitem Hi].
    rewrite list_remove_distinct by (done || apply Hsub; left).
    unfold ret at 1. cbn [bind]. unfold ret at 1. cbv beta iota.
    rewrite IH; rewrite ?app_wait_list_with.
    + rewrite with_app_wait_list_twice. f_equal. f_equal.
      rewrite list_filter_filter.
      apply list_filter_iff. intros x. rewrite fmap_cons, not_elem_of_cons. tauto.
    + by apply NoDup_fmap_filter.
    + done.
    + intros i Hin. apply list_elem_of_filter. split.
      * intros Heq. apply Hitem. rewrite <- Heq. by apply list_elem_of_fmap_2.
      * apply Hsub. by right.
Qed.

(** The calls of the listener for a message with a name and a value. *)
Lemma on_app_message_ops_ok message name value self :
  getitem message "name" = inr name →
  getitem message "value" = inr value →
  on_app_message_ops (Some message) self =
    flat_map (resolve_ops value)
      (filter (λ w, resolves name value w) (app_wait_list self))
    ++ (ListRemove <$>
          filter (λ w, resolves name value w) (app_wait_list self)).
Proof.
  intros Hn Hv. unfold on_app_message_ops.
  by rewrite (scan_wait_list_ok _ name value) by done.
Qed.

Lemma on_app_message_ops_malformed message self e :
  getitem message "name" = inl e ∨ getitem message "value" = inl e →
  on_app_message_ops (Some message) self = [].
Proof.
  intros [Hn | Hv]; unfold on_app_message_ops.
  - destruct (app_wait_list self) as [| app apps]; cbn [scan_wait_list]; [done |].
    by rewrite Hn.
  - pose proof (scan_wait_list_no_value message (app_wait_list self) [] e Hv)
      as [Hfst Hsnd].
    destruct (scan_wait_list message (app_wait_list self) []) as [ops [e' | l]];
      cbn in *; subst; [done |].
    by rewrite (Hsnd l eq_refl).
Qed.

Lemma on_app_message_ok message name value self :
  NoDup (wr_wait_event <$> app_wait_list self) →
  getitem message "name" = inr name →
  getitem message "value" = inr value →
  on_app_message (Some message) self =
    with_app_wait_list
      (filter (λ w, ¬ resolves name value w) (app_wait_list self))
      (foldl (resolve value) self
         (filter (λ w, resolves name value w) (app_wait_list self))).
Proof.
  intros Hnd Hn Hv. unfold on_app_message.
  rewrite (on_app_message_ops_ok _ name value) by done.
  rewrite run_ops_app, run_ops_resolve. unfold ret at 1. cbv beta iota.
  rewrite run_ops_remove_distinct; rewrite ?resolve_all_app_wait_list.
  - cbn. f_equal. apply filter_ext_elem. intros x Hx. split.
    + intros Hnot HP. apply Hnot. apply list_elem_of_fmap_2.
      by apply list_elem_of_filter.
    + intros Hnot (y & Hxy & Hy)%list_elem_of_fmap.
      apply list_elem_of_filter in Hy as [HPy Hy].
      by rewrite (NoDup_fmap_elem_inj wr_wait_event _ x y Hnd Hx Hy Hxy) in Hnot.
  - done.
  - by apply NoDup_fmap_filter.
  - intros i Hin. by apply list_elem_of_filter in Hin as [_ ?].
Qed.

Lemma on_app_message_malformed message self e :
  getitem message "name" = inl e ∨ getitem message "value" = inl e →
  on_app_message (Some message) self = self.
Proof.
  intros H. unfold on_app_message.
  by rewrite (on_app_message_ops_malformed message self e H).
Qed.

(** Every message either leaves the client as it is, or is an object with
    a name and a value, handled by the two loops. *)
Lemma on_app_message_cases message self :
  on_app_message message self = self
  ∨ ∃ m name value,
      message = Some m
      ∧ getitem m "name" = inr name
      ∧ getitem m "value" = inr value.
Proof.
  destruct message as [m |]; [| by left].
  destruct (getitem m "name") as [e | name] eqn:Hn.
  { left. eapply on_app_message_malformed. by left. }
  destruct (getitem m "value") as [e | value] eqn:Hv.
  { left. eapply on_app_message_malformed. by right. }
  right. by exists m, name, value.
Qed.

(** ** The pending entries own their event and queue *)

Lemma on_app_message_pending_ok message self :
  pending_ok self → pending_ok (on_app_message message self).
Proof.
  intros Hok.
  destruct (on_app_message_cases message self)
    as [-> | (m & name & value & -> & Hn & Hv)]; [done |].
  destruct Hok as (Hev & Hq & Hst).
  rewrite (on_app_message_ok m name value) by done.
  split; [| split]; cbn.
  - by apply NoDup_fmap_filter.
  - by apply NoDup_fmap_filter.
  - intros w [Hw Hin]%list_elem_of_filter.
    destruct (Hst w Hin) as [He Hqw]. split.
    + rewrite resolve_all_events, decide_False; [done |].
      intros (y & Hy & [HPy Hyin]%list_elem_of_filter)%list_elem_of_fmap.
      by rewrite (NoDup_fmap_elem_inj wr_wait_event _ w y Hev Hin Hyin Hy) in Hw.
    + rewrite resolve_all_queues_other; [done |].
      intros (y & Hy & [HPy Hyin]%list_elem_of_filter)%list_elem_of_fmap.
      by rewrite (NoDup_fmap_elem_inj wr_resolved_state _ w y Hq Hin Hyin Hy) in Hw.
Qed.

(** [app_wait_event], with the allocation of the two objects made
    explicit. *)
Lemma app_wait_event_unfold name state (stop : bool) self :
  let e := fresh (dom (events self) : gset loc) in
  let q := fresh (dom (queues self) : gset loc) in
  let states := state :: (if stop then error_states else []) in
  let self1 :=
    with_queues (<[q := []]> (queues self))
      (with_events (<[e := false]> (events self)) self) in
  app_wait_event name state stop self =
    match applications self !! name with
    | None => (self1, raise (KeyError name))
    | Some app =>
        match prop_state (app_properties app) with
        | None => (self1, raise (KeyError "state"))
        | Some current_state =>
            if py_in current_state states
            then (event_set e (queue_put q current_state self1), ret (e, q))
            else (with_app_wait_list
                    (app_wait_list self ++
                       [{| wr_name := name; wr_state := states;
                           wr_wait_event := e; wr_resolved_state := q |}])
                    self1,
                  ret (e, q))
        end
    end.
Proof.
  intros e q states self1. unfold app_wait_event, app_wait_event_ops.
  fold e q. subst states.
  destruct stop;
    (destruct (applications self !! name) as [app |]; [| reflexivity];
     destruct (prop_state (app_properties app)) as [cur |]; [| reflexivity];
     cbn [List.app];
     match goal with |- context [py_in cur ?l] => destruct (py_in cur l) end;
     reflexivity).
Qed.

Lemma pending_event_allocated self w :
  pending_ok self → w ∈ app_wait_list self →
  wr_wait_event w ≠ fresh (dom (events self) : gset loc)
  ∧ wr_resolved_state w ≠ fresh (dom (queues self) : gset loc).
Proof.
  intros (_ & _ & Hst) Hin. destruct (Hst w Hin) as [He Hq]. split.
  - intros Heq. apply (is_fresh (dom (events self) : gset loc)).
    rewrite <- Heq. apply elem_of_dom. by eexists.
  - intros Heq. apply (is_fresh (dom (queues self) : gset loc)).
    rewrite <- Heq. apply elem_of_dom. by eexists.
Qed.

Lemma app_wait_event_pending_ok name state stop self :
  pending_ok self → pending_ok (fst (app_wait_event name state stop self)).
Proof.
  intros Hok. pose proof (pending_event_allocated self) as Hfresh.
  rewrite app_wait_event_unfold.
  set (e := fresh (dom (events self) : gset loc)) in *.
  set (q := fresh (dom (queues self) : gset loc)) in *.
  assert (pending_ok
            (with_queues (<[q := []]> (queues self))
               (with_events (<[e := false]> (events self)) self))) as Hok1.
  { destruct Hok as (Hev & Hq & Hst). split; [done | split; [done |]].
    intros w Hin. destruct (Hst w Hin) as [He Hqw].
    destruct (Hfresh w) as [Hne Hnq]; [done.. |]. cbn.
    by rewrite !lookup_insert_ne. }
  destruct (applications self !! name) as [app |]; [| done].
  destruct (prop_state (app_properties app)) as [cur |]; [| done].
  destruct (py_in cur _); cbn [fst].
  - destruct Hok as (Hev & Hq & Hst). split; [done | split; [done |]].
    intros w Hin. destruct (Hst w Hin) as [He Hqw].
    destruct (Hfresh w) as [Hne Hnq]; [done.. |]. cbn.
    by rewrite !lookup_insert_ne.
  - destruct Hok as (Hev & Hq & Hst). split; [| split]; cbn.
    + rewrite fmap_app. apply NoDup_app. split; [done |]. split.
      * intros x (w & -> & Hin)%list_elem_of_fmap [Heq | []%elem_of_nil]%elem_of_cons.
        by destruct (Hfresh w) as [Hne _].
      * apply NoDup_singleton.
    + rewrite fmap_app. apply NoDup_app. split; [done |]. split.
      * intros x (w & -> & Hin)%list_elem_of_fmap [Heq | []%elem_of_nil]%elem_of_cons.
        by destruct (Hfresh w) as [_ Hne].
      * apply NoDup_singleton.
    + intros w [Hin | [-> | []%elem_of_nil]%elem_of_cons]%elem_of_app.
      * destruct (Hst w Hin) as [He Hqw].
        destruct (Hfresh w) as [Hne Hnq]; [done.. |].
        by rewrite !lookup_insert_ne.
      * cbn. by rewrite !lookup_insert_eq.
Qed.

Lemma run_activity_pending_ok a self :
  pending_ok self → pending_ok (run_activity a self).
Proof.
  destruct a; cbn.
  - apply on_app_message_pending_ok.
  - apply app_wait_event_pending_ok.
Qed.

Lemma run_pending_ok others self :
  pending_ok self → pending_ok (run others self).
Proof.
  revert self. induction others as [| a others IH]; intros self Hok; [done |].
  apply IH. by apply run_activity_pending_ok.
Qed.

Lemma init_pending_ok requests entities root self :
  __init__ requests entities root = inr self → pending_ok self.
Proof.
  unfold __init__. intros H.
  destruct (register_entities requests entities ∅) as [e | apps]; [done |].
  cbn in H. destruct (_get_actions requests root) as [e | triggers]; [done |].
  cbn in H. injection H as <-.
  split; [| split]; cbn.
  - apply NoDup_nil_2.
  - apply NoDup_nil_2.
  - intros w []%elem_of_nil.
Qed.

(** ** The store under a change of the list; messages with a string value *)

Lemma event_is_set_with_app_wait_list l self e :
  event_is_set (with_app_wait_list l self) e = event_is_set self e.
Proof. reflexivity. Qed.

Lemma queue_items_with_app_wait_list l self q :
  queue_items (with_app_wait_list l self) q = queue_items self q.
Proof. reflexivity. Qed.

Lemma example_client_pending_ok : pending_ok example_client.
Proof.
  split; [| split]; cbn.
  - apply NoDup_nil_2.
  - apply NoDup_nil_2.
  - intros w []%elem_of_nil.
Qed.

(** A message whose value is a string passes the test of no entry: the
    listener makes no call and leaves the client as it is. *)
Lemma on_app_message_string_value message s self :
  getitem message "value" = inr (PyStr s) →
  on_app_message (Some message) self = self.
Proof.
  intros Hv.
  destruct (getitem message "name") as [e | name] eqn:Hn.
  { eapply on_app_message_malformed. by left. }
  unfold on_app_message.
  rewrite (on_app_message_ops_ok _ name (PyStr s)) by done.
  rewrite filter_all_elem_none; [reflexivity |].
  intros w _. unfold resolves. rewrite py_eq_list_str, andb_false_r. cbn. tauto.
Qed.

(** ** The status listener leaves the wait engine alone *)

Lemma on_status_message_wait_engine callback message self :
  let self' := on_status_message callback message self in
  app_wait_list self' = app_wait_list self
  ∧ events self' = events self
  ∧ queues self' = queues self
  ∧ applications self' = applications self.
Proof.
  unfold on_status_message, on_status_message_ops.
  destruct message as [m |]; [| done].
  destruct (match callback with Some f => f m | None => ret m end)
    as [e | m']; [done |].
  destruct (getitem m' "state") as [e | state]; [done |].
  by destruct (py_eq state (PyStr "Ready")), (py_eq state (PyStr "Closing")).
Qed.

Lemma on_status_message_pending_ok callback message self :
  pending_ok self → pending_ok (on_status_message callback message self).
Proof.
  destruct (on_status_message_wait_engine callback message self)
    as (Hl & He & Hq & _).
  unfold pending_ok. by rewrite Hl, He, Hq.
Qed.

(** When the canonical name is registered and the entity has no ['alias']
    key, reading the alias raises [KeyError]. *)
Lemma register_entity_alias_absent requests entity
    (apps : gmap string Application) :
  is_Some (apps !! prop_name (entity_properties entity)) →
  prop_alias (entity_properties entity) = None →
  register_entity requests entity apps = raise (KeyError "alias").
Proof. intros [old Hold] Halias. unfold register_entity. by rewrite Hold, Halias. Qed.

(** ** Registration of a wait *)




(** ** The listener and the waiters of a message *)

(** C1, on the code. Two callers wait for [("app1", "Running")]; both
    entries await the message [{"name": "app1", "value": "Running"}]. The
    listener compares the list of acceptable states itself with the value,
    so neither entry passes its test: after the message both are still in
    [app_wait_list], both events are unset and both queues are empty. *)
Theorem on_app_message_leaves_awaiting_entries :
  let self' := on_app_message (Some running_message) two_waiters in
  Forall (λ w, awaits (PyStr "app1") (PyStr "Running") w = true)
    (app_wait_list two_waiters)
  ∧ length (app_wait_list two_waiters) = 2%nat
  ∧ app_wait_list self' = app_wait_list two_waiters
  ∧ Forall (λ w, event_is_set self' (wr_wait_event w) = false
                 ∧ queue_items self' (wr_resolved_state w) = [])
      (app_wait_list two_waiters).
Proof.
  cbv zeta.
  rewrite (on_app_message_string_value running_message "Running") by reflexivity.
  split; [| split; [reflexivity | split; [reflexivity |]]].
  - vm_compute. repeat constructor.
  - vm_compute. repeat constructor.
Qed.

(** ** What the listener leaves alone *)

(** What the listener leaves alone, under the test it makes. It handles
    a message with name [name] and value [value], on a client whose
    pending entries own their event and queue. The entries it removes are
    those that pass its test, the others stay in order. An entry for
    another application, or one for which the value (a string, or any
    value that is not itself a list) is not an acceptable state, stays in
    [app_wait_list], its event unset and its queue as it was. When no
    entry is for the application of the message, [app_wait_list] is
    unchanged. *)
Lemma on_app_message_frame message name value self :
  pending_ok self →
  getitem message "name" = inr name →
  getitem message "value" = inr value →
  let self' := on_app_message (Some message) self in
  app_wait_list self' =
    filter (λ w, ¬ resolves name value w) (app_wait_list self)
  ∧ (∀ w, w ∈ app_wait_list self →
       py_eq (PyStr (wr_name w)) name = false
       ∨ ((∀ l, value ≠ PyList l) ∧ py_in value (wr_state w) = false) →
       w ∈ app_wait_list self'
       ∧ event_is_set self' (wr_wait_event w) = false
       ∧ queue_items self' (wr_resolved_state w) =
           queue_items self (wr_resolved_state w))
  ∧ ((∀ w, w ∈ app_wait_list self →
        py_eq (PyStr (wr_name w)) name = false) →
     app_wait_list self' = app_wait_list self).
Proof.
  intros Hok Hn Hv self'.
  pose proof (on_app_message_pending_ok (Some message) self Hok) as Hok'.
  fold self' in Hok'.
  assert (app_wait_list self' =
            filter (λ w, ¬ resolves name value w) (app_wait_list self)) as Hl.
  { unfold self'. destruct Hok as (Hev & _).
    by rewrite (on_app_message_ok message name value). }
  assert (∀ w, w ∈ app_wait_list self → resolves name value w = false →
            w ∈ app_wait_list self'
            ∧ event_is_set self' (wr_wait_event w) = false
            ∧ queue_items self' (wr_resolved_state w) =
                queue_items self (wr_resolved_state w)) as Hkeep.
  { intros w Hin Hw.
    assert (w ∈ app_wait_list self') as Hin'.
    { rewrite Hl. apply list_elem_of_filter. split; [| done].
      rewrite Hw. cbn. tauto. }
    split; [done |].
    destruct Hok as (_ & _ & Hst). destruct Hok' as (_ & _ & Hst').
    destruct (Hst w Hin) as [_ Hq]. destruct (Hst' w Hin') as [He' Hq'].
    unfold event_is_set, queue_items. by rewrite He', Hq', Hq. }
  split; [done |]. split.
  - intros w Hin Hcase. apply Hkeep; [done |]. unfold resolves.
    destruct Hcase as [-> | [Hnl _]]; [done |].
    rewrite py_eq_list_other by done. apply andb_false_r.
  - intros Hnone. rewrite Hl. apply filter_all_elem.
    intros w Hin. unfold resolves. rewrite (Hnone w Hin). cbn. tauto.
Qed.

Lemma three_waiters_pending_ok : pending_ok three_waiters.
Proof.
  repeat apply app_wait_event_pending_ok. apply example_client_pending_ok.
Qed.

(** C10, on the code. The entries that the listener removes are not those
    that the message matches, in either direction; the defect is the test
    of C1, which compares the list of acceptable states itself with the
    value. Two callers wait for [("app1", "Running")]: both entries match
    the message [{"name": "app1", "value": "Running"}], and both stay in
    [app_wait_list]. A third caller waits for [("app1", "Idle")]: the
    value of the message [{"name": "app1", "value": ["Idle"]}], a list,
    is not one of its acceptable states, yet the entry is removed, its
    event is set and its queue, empty before, holds the list. *)
Theorem on_app_message_removes_unmatched_entry :
  let w := {| wr_name := "app1"; wr_state := [PyStr "Idle"];
              wr_wait_event := 2%nat; wr_resolved_state := 2%nat |} in
  let self' := on_app_message (Some idle_list_message) three_waiters in
  (Forall (λ w, awaits (PyStr "app1") (PyStr "Running") w = true)
     (app_wait_list two_waiters)
   ∧ length (app_wait_list two_waiters) = 2%nat
   ∧ app_wait_list (on_app_message (Some running_message) two_waiters)
       = app_wait_list two_waiters)
  ∧ (w ∈ app_wait_list three_waiters)
  ∧ awaits (PyStr "app1") (PyList [PyStr "Idle"]) w = false
  ∧ (w ∉ app_wait_list self')
  ∧ app_wait_list self' = app_wait_list two_waiters
  ∧ event_is_set three_waiters 2%nat = false
  ∧ event_is_set self' 2%nat = true
  ∧ queue_items three_waiters 2%nat = []
  ∧ queue_items self' 2%nat = [PyList [PyStr "Idle"]].
Proof.
  cbv zeta. split.
  { rewrite (on_app_message_string_value running_message "Running")
      by reflexivity.
    split; [vm_compute; repeat constructor | by split]. }
  assert (app_wait_list (on_app_message (Some idle_list_message) three_waiters)
            = app_wait_list two_waiters) as Hl.
  { destruct (on_app_message_frame idle_list_message
                (PyStr "app1") (PyList [PyStr "Idle"]) three_waiters
                three_waiters_pending_ok eq_refl eq_refl) as [-> _].
    vm_compute. reflexivity. }
  split; [vm_compute; repeat constructor |].
  split; [reflexivity |]. split.
  - rewrite Hl. vm_compute.
    intros [[=] | [[=] | []%elem_of_nil]%elem_of_cons]%elem_of_cons.
  - split; [exact Hl |]. vm_compute. by repeat split.
Qed.

(** ** Machine signals *)

Lemma py_eq_str v s : py_eq v (PyStr s) = true ↔ v = PyStr s.
Proof.
  destruct v; cbn; try (split; [discriminate | discriminate]).
  rewrite String.eqb_eq. split; congruence.
Qed.

(** C4. [on_status_message] on a decoded message whose ['state'] is
    [state], when no callback is installed or the callback returns and
    leaves the message as it is. The ready signal is set and the not-ready
    signal cleared when [state] is "Ready"; the ready signal is cleared
    and the not-ready signal set for any other value. The closing signal
    is set when [state] is "Closing" or "Ready" and cleared otherwise. *)
Theorem on_status_message_signals callback message state self :
  getitem message "state" = inr state →
  match callback with
  | Some f => f message = ret message
  | None => True
  end →
  let self' := on_status_message callback (Some message) self in
  (state = PyStr "Ready" →
     wait_ready_event self' = true ∧ wait_not_ready_event self' = false)
  ∧ (state ≠ PyStr "Ready" →
       wait_ready_event self' = false ∧ wait_not_ready_event self' = true)
  ∧ (state = PyStr "Closing" ∨ state = PyStr "Ready" →
       wait_closing_event self' = true)
  ∧ (state ≠ PyStr "Closing" → state ≠ PyStr "Ready" →
       wait_closing_event self' = false).
Proof.
  intros Hstate Hcb self'.
  assert (on_status_message_ops callback (Some message) =
            (if py_eq state (PyStr "Ready")
             then [(WaitReady, true); (WaitNotReady, false)]
             else [(WaitReady, false); (WaitNotReady, true)])
            ++ (if py_eq state (PyStr "Closing") || py_eq state (PyStr "Ready")
                then [(WaitClosing, true)]
                else [(WaitClosing, false)])) as Hops.
  { unfold on_status_message_ops.
    destruct callback as [f |]; cbv beta iota zeta; [rewrite Hcb |];
      unfold ret; cbv beta iota; by rewrite Hstate. }
  unfold self', on_status_message. rewrite Hops.
  pose proof (py_eq_str state "Ready") as HR.
  pose proof (py_eq_str state "Closing") as HC.
  destruct (py_eq state (PyStr "Ready")), (py_eq state (PyStr "Closing"));
    cbn; repeat split; intros; try done;
    try (exfalso; intuition congruence).
Qed.

Lemma on_status_message_signals_witness :
  let ready :=
    on_status_message None (Some (JObject [("state", PyStr "Ready")]))
      example_client in
  let running :=
    on_status_message None (Some (JObject [("state", PyStr "Running")]))
      ready in
  (wait_ready_event ready = true ∧ wait_not_ready_event ready = false
   ∧ wait_closing_event ready = true)
  ∧ (wait_ready_event running = false ∧ wait_not_ready_event running = true
     ∧ wait_closing_event running = false).
Proof.
  intros ready running. split.
  - destruct (on_status_message_signals None
                (JObject [("state", PyStr "Ready")]) (PyStr "Ready")
                example_client eq_refl I) as (H1 & _ & H3 & _).
    destruct (H1 eq_refl) as [Hr Hn].
    split; [exact Hr | split; [exact Hn | exact (H3 (or_intror eq_refl))]].
  - vm_compute. repeat split.
Defined.

(** ** Invoking an action *)

Lemma static_fields_lookup_aux (k : string) (fields : list Field)
    (acc : gmap string pyval) :
  foldl (fun (fields : gmap string pyval) field =>
           match field_value field with
           | Some value => <[field_name field := value]> fields
           | None => fields
           end) acc fields !! k =
    match static_default k fields with
    | Some v => Some v
    | None => acc !! k
    end.
Proof.
  revert acc. induction fields as [| f fields IH]; intros acc; cbn; [done |].
  rewrite IH. destruct (static_default k fields) as [v |]; [done |].
  destruct (String.eqb (field_name f) k) eqn:E.
  - apply String.eqb_eq in E as <-.
    destruct (field_value f) as [v |]; [| done].
    by rewrite lookup_insert_eq.
  - apply String.eqb_neq in E.
    destruct (field_value f) as [v |]; [| done].
    by rewrite lookup_insert_ne.
Qed.

Lemma static_fields_lookup (k : string) (action : Action) :
  static_fields action !! k = static_default k (action_fields action).
Proof.
  unfold static_fields. rewrite static_fields_lookup_aux, lookup_empty.
  by destruct (static_default k (action_fields action)).
Qed.

(** C5. [post_func] sends one body, whatever the transport answers: under
    each key, the value the caller supplied for it, and when the caller
    supplied none, the static default of the key -- the value of a field of
    the action with that name that carries one; a key that the caller did
    not supply and for which no field carries a value is absent. *)
Theorem post_func_body (action : Action) (kwargs : gmap string pyval) :
  ∃ body : gmap string pyval,
    (∀ requests,
       call_post_func requests action kwargs =
         let* request :=
           requests_post requests (action_href action)
             {[ "Content-type" := action_type action ]} body in
         let* _ := raise_for_status request in
         ret tt)
    ∧ ∀ k,
        body !! k =
          match kwargs !! k with
          | Some v => Some v
          | None => static_default k (action_fields action)
          end.
Proof.
  exists (kwargs ∪ static_fields action). split; [reflexivity |].
  intros k. rewrite lookup_union, static_fields_lookup.
  destruct (kwargs !! k) as [v |]; cbn.
  - by destruct (static_default k (action_fields action)).
  - by destruct (static_default k (action_fields action)).
Qed.

(** The example of the specification: the static field "mode" is "auto",
    the field "speed" has no value, and the caller passes mode="manual";
    the body is {"mode": "manual"}. *)
Lemma post_func_body_override :
  ∀ requests,
    call_post_func requests start_action {[ "mode" := PyStr "manual" ]} =
      let* request :=
        requests_post requests "/apps/1/start"
          {[ "Content-type" := "application/json" ]}
          {[ "mode" := PyStr "manual" ]} in
      let* _ := raise_for_status request in
      ret tt.
Proof.
  intros requests. unfold call_post_func.
  replace ({[ "mode" := PyStr "manual" ]} ∪ static_fields start_action)
    with ({[ "mode" := PyStr "manual" ]} : gmap string pyval); [reflexivity |].
  apply map_eq. intros k.
  rewrite lookup_union, static_fields_lookup. cbn -[String.eqb].
  destruct (decide (k = "mode")) as [-> | Hne].
  - by rewrite lookup_singleton_eq.
  - rewrite lookup_singleton_ne by done.
    destruct (String.eqb_spec "speed" k), (String.eqb_spec "mode" k);
      by subst.
Qed.

(** C8, as stated, fails. The status 304 is not a success, yet handed a
    response with that status the GET closure returns it and the POST
    closure returns [None]: [raise_for_status] raises for the statuses 400
    to 599 only. And what it raises for the status 404 is the [HTTPError]
    of the requests library, which is not an exception of this module. *)
Lemma action_returns_on_not_modified :
  success_status not_modified = false
  ∧ call (answering not_modified) (_get_fields status_action) ∅
      = ret (Some not_modified)
  ∧ call (answering not_modified) (_get_fields start_action) ∅ = ret None
  ∧ ∃ e, call example_requests (_get_fields status_action) ∅ = raise e
         ∧ is_GaiaError e = false.
Proof.
  split; [reflexivity |]. split; [reflexivity |]. split; [reflexivity |].
  eexists. split; reflexivity.
Qed.

(** C8, amended. Calling an entry of an action map built by [_get_fields],
    when the transport answers with a response [r]. For the method "POST"
    the request is a POST to the target, with the header [Content-type]
    set to the declared type and with the body of C5: under each key the
    value the caller supplied, else the static default. For any other
    method, called without argument, the request is a GET to the target
    with the same header. In both cases the call raises the [HTTPError] of
    the requests library, carrying [r], when the status of [r] is from 400
    to 599; for every other status the POST returns [None] and the GET
    returns [r]. [HTTPError] is not a [GaiaError]. *)
Theorem action_invocation requests (action : Action)
    (kwargs : gmap string pyval) (r : Response) :
  (action_method action = "POST" →
   ∃ body : gmap string pyval,
     (∀ k, body !! k =
             match kwargs !! k with
             | Some v => Some v
             | None => static_default k (action_fields action)
             end)
     ∧ (requests_post requests (action_href action)
          {[ "Content-type" := action_type action ]} body = ret r →
        (400 ≤ status_code r < 600 →
         call requests (_get_fields action) kwargs = raise (HTTPError r))
        ∧ (status_code r < 400 ∨ 600 ≤ status_code r →
           call requests (_get_fields action) kwargs = ret None)))
  ∧ (action_method action ≠ "POST" →
     requests_get requests (action_href action)
       {[ "Content-type" := action_type action ]} = ret r →
     (400 ≤ status_code r < 600 →
      call requests (_get_fields action) ∅ = raise (HTTPError r))
     ∧ (status_code r < 400 ∨ 600 ≤ status_code r →
        call requests (_get_fields action) ∅ = ret (Some r)))
  ∧ is_GaiaError (HTTPError r) = false.
Proof.
  split; [| split; [| reflexivity]].
  - intros Hm. exists (kwargs ∪ static_fields action). split.
    { intros k. rewrite lookup_union, static_fields_lookup.
      destruct (kwargs !! k) as [v |]; cbn;
        by destruct (static_default k (action_fields action)). }
    intros Hpost. unfold _get_fields. rewrite Hm, String.eqb_refl.
    unfold call, call_post_func. cbv zeta. rewrite Hpost.
    unfold raise_for_status, error_status. cbn [bind ret]. split.
    + intros [Hlo Hhi].
      apply Z.leb_le in Hlo. apply Z.ltb_lt in Hhi. by rewrite Hlo, Hhi.
    + intros [Hlo | Hhi].
      * apply Z.leb_gt in Hlo. by rewrite Hlo.
      * apply Z.ltb_ge in Hhi. by rewrite Hhi, andb_false_r.
  - intros Hm Hget. unfold _get_fields.
    apply String.eqb_neq in Hm. rewrite Hm.
    unfold call, call_get_func. rewrite decide_True by done.
    rewrite Hget. unfold raise_for_status, error_status. cbn [bind ret]. split.
    + intros [Hlo Hhi].
      apply Z.leb_le in Hlo. apply Z.ltb_lt in Hhi. by rewrite Hlo, Hhi.
    + intros [Hlo | Hhi].
      * apply Z.leb_gt in Hlo. by rewrite Hlo.
      * apply Z.ltb_ge in Hhi. by rewrite Hhi, andb_false_r.
Qed.

Lemma action_invocation_witness :
  call example_requests (_get_fields status_action) ∅ =
    raise (HTTPError {| status_code := 404; response_json := None |}).
Proof.
  apply (proj1 (proj2 (action_invocation example_requests status_action ∅
                         {| status_code := 404; response_json := None |}))
           ltac:(discriminate) eq_refl).
  cbn. lia.
Defined.

(** ** Building the registry *)

Lemma _get_actions_fetch_failure requests entity :
  (∃ e, requests_get requests (entity_href entity) ∅ = raise e)
  ∨ (∃ r, requests_get requests (entity_href entity) ∅ = ret r
          ∧ response_json r = None) →
  _get_actions requests entity = raise (UnboundLocalError "entity_details").
Proof.
  unfold _get_actions. intros [[e ->] | (r & -> & Hr)]; cbn; [done |].
  by rewrite Hr.
Qed.

(** C6, on the code. The body of [/apps/3] does not decode and the fetch of
    [/apps/9] fails. For either entity [_get_actions] raises
    [UnboundLocalError] instead of returning an empty action map; the
    exception leaves the loop of [__init__], so the entity that follows is
    never registered and no client is built. *)
Theorem get_actions_failure_aborts_registry :
  let undecodable := example_entity "/apps/3" "app3" None in
  let unreachable := example_entity "/apps/9" "app9" None in
  let good := example_entity "/apps/1" "app1" None in
  _get_actions example_requests undecodable =
    raise (UnboundLocalError "entity_details")
  ∧ _get_actions example_requests unreachable =
      raise (UnboundLocalError "entity_details")
  ∧ (∃ apps, register_entities example_requests [good] ∅ = ret apps
             ∧ is_Some (apps !! "app1"))
  ∧ register_entities example_requests [undecodable; good] ∅ =
      raise (UnboundLocalError "entity_details")
  ∧ register_entities example_requests [unreachable; good] ∅ =
      raise (UnboundLocalError "entity_details")
  ∧ __init__ example_requests [undecodable; good] good =
      raise (UnboundLocalError "entity_details").
Proof.
  cbv zeta. split; [reflexivity |]. split; [reflexivity |]. split.
  - eexists. split; [reflexivity |]. vm_compute. by eexists.
  - repeat split; reflexivity.
Qed.

(** C7, as stated, fails. Two entities have the canonical name "app"; the
    second carries the alias "app-b" and its own detail document. The
    entry under the alias holds the actions of the second entity, not the
    action set of the canonical entry. *)
Lemma alias_entry_holds_own_actions :
  ∃ apps canonical aliased,
    register_entities example_requests
      [example_entity "/apps/1" "app" None;
       example_entity "/apps/2" "app" (Some "app-b")] ∅ = ret apps
    ∧ apps !! "app" = Some canonical
    ∧ apps !! "app-b" = Some aliased
    ∧ app_actions aliased ≠ app_actions canonical.
Proof.
  eexists _, _, _. split; [reflexivity |].
  split; [vm_compute; reflexivity |]. split; [vm_compute; reflexivity |].
  cbn [app_actions]. intros Heq.
  apply (f_equal (λ m : gmap string Callable, m !! "stop")) in Heq.
  vm_compute in Heq. discriminate Heq.
Qed.

(** An alias equal to a canonical name that is registered replaces the
    entry of that name. *)
Lemma alias_equal_to_name_overwrites :
  ∃ apps entry,
    register_entities example_requests
      [example_entity "/apps/1" "app" None;
       example_entity "/apps/2" "app" (Some "app")] ∅ = ret apps
    ∧ apps !! "app" = Some entry
    ∧ app_actions entry !! "start" = None
    ∧ app_actions entry !! "stop" = Some (post_func stop_action).
Proof.
  eexists _, _. split; [reflexivity |].
  split; [vm_compute; reflexivity |]. split; vm_compute; reflexivity.
Qed.

(** C7, amended. The body of the registration loop, on an entity with
    properties [properties] and any registry [apps] reached so far. When
    the canonical name is not registered and the actions of the entity
    resolve, the entity is inserted under its canonical name. When the
    canonical name is registered, the alias is a non-empty string and the
    actions of the entity resolve, the entity is inserted under the alias,
    with its own actions and properties. In both cases every other key
    keeps its entry. When the canonical name is registered and the alias
    is null or empty, the registry is unchanged. *)
Theorem register_entity_rule requests entity (apps : gmap string Application) :
  let properties := entity_properties entity in
  let name := prop_name properties in
  (∀ actions,
     apps !! name = None →
     _get_actions requests entity = ret actions →
     ∃ apps',
       register_entity requests entity apps = ret apps'
       ∧ apps' !! name =
           Some {| app_actions := actions; app_properties := properties |}
       ∧ ∀ k, k ≠ name → apps' !! k = apps !! k)
  ∧ (∀ actions alias,
       is_Some (apps !! name) →
       prop_alias properties = Some (Some alias) →
       alias ≠ "" →
       _get_actions requests entity = ret actions →
       ∃ apps',
         register_entity requests entity apps = ret apps'
         ∧ apps' !! alias =
             Some {| app_actions := actions; app_properties := properties |}
         ∧ ∀ k, k ≠ alias → apps' !! k = apps !! k)
  ∧ (is_Some (apps !! name) →
     prop_alias properties = Some None
     ∨ prop_alias properties = Some (Some "") →
     register_entity requests entity apps = ret apps).
Proof.
  intros properties name. unfold register_entity. fold properties. fold name.
  split; [| split].
  - intros actions Hnone Hact. rewrite Hnone, Hact. cbn.
    eexists. split; [reflexivity |]. split.
    + apply lookup_insert_eq.
    + intros k Hk. by apply lookup_insert_ne.
  - intros actions alias [old Hold] Halias Hne Hact.
    rewrite Hold, Halias. cbn [alias_key].
    apply String.eqb_neq in Hne. rewrite Hne, Hact. cbn.
    eexists. split; [reflexivity |]. split.
    + apply lookup_insert_eq.
    + intros k Hk. by apply lookup_insert_ne.
  - intros [old Hold] [Halias | Halias]; by rewrite Hold, Halias.
Qed.

Lemma register_entity_rule_witness :
  ∃ apps',
    register_entity example_requests
      (example_entity "/apps/2" "app1" (Some "app-b")) example_applications
      = ret apps'
    ∧ apps' !! "app-b" =
        Some {| app_actions := {[ "stop" := post_func stop_action ]};
                app_properties :=
                  {| prop_name := "app1"; prop_alias := Some (Some "app-b");
                     prop_state := Some (PyStr "Stopped") |} |}
    ∧ apps' !! "app1" = example_applications !! "app1".
Proof.
  destruct (proj1 (proj2 (register_entity_rule example_requests
              (example_entity "/apps/2" "app1" (Some "app-b"))
              example_applications))
              {[ "stop" := post_func stop_action ]} "app-b")
    as (apps' & Hreg & Halias & Hother).
  - vm_compute. by eexists.
  - reflexivity.
  - discriminate.
  - reflexivity.
  - exists apps'. split; [exact Hreg |]. split; [exact Halias |].
    apply Hother. discriminate.
Defined.

(** ** The address and the socket URLs *)

Lemma append_cons (c : Ascii.ascii) (s t : string) :
  String c s +:+ t = String c (s +:+ t).
Proof. reflexivity. Qed.

Lemma append_nil (t : string) : "" +:+ t = t.
Proof. reflexivity. Qed.

Lemma prefix_append (sub post : string) : String.prefix sub (sub +:+ post) = true.
Proof.
  induction sub as [| c sub IH].
  - rewrite append_nil. by destruct post.
  - rewrite append_cons. cbn [String.prefix].
    by destruct (Ascii.ascii_dec c c).
Qed.

Lemma prefix_inv (sub s : string) :
  String.prefix sub s = true → ∃ post, s = sub +:+ post.
Proof.
  revert s. induction sub as [| c sub IH]; intros s H.
  - by exists s.
  - destruct s as [| d s]; [done |]. cbn [String.prefix] in H.
    destruct (Ascii.ascii_dec c d) as [-> |]; [| done].
    destruct (IH s H) as [post ->]. by exists post.
Qed.

Lemma str_in_spec (sub s : string) :
  str_in sub s = true ↔ ∃ pre post, s = pre +:+ sub +:+ post.
Proof.
  split.
  - induction s as [| c s IH]; cbn [str_in]; intros H.
    + rewrite orb_false_r in H. apply prefix_inv in H as [post ->].
      by exists "", post.
    + apply orb_prop in H as [H | H].
      * apply prefix_inv in H as [post ->]. by exists "", post.
      * destruct (IH H) as (pre & post & ->). by exists (String c pre), post.
  - intros (pre & post & ->).
    induction pre as [| c pre IH].
    + rewrite append_nil. destruct (sub +:+ post) eqn:E; cbn [str_in];
        rewrite <- ?E, prefix_append; done.
    + rewrite append_cons. cbn [str_in]. rewrite IH. apply orb_true_r.
Qed.

(** X1. [prependurl]: the address it returns always contains "://", it
    ends with the address it was given, and applying it twice is applying
    it once; an address is changed only when it does not contain "://",
    by putting "http://" in front. *)
Theorem prependurl_scheme (url : string) :
  str_in "://" (prependurl url) = true
  ∧ prependurl (prependurl url) = prependurl url
  ∧ (∃ pre, prependurl url = pre +:+ url)
  ∧ (prependurl url ≠ url →
     str_in "://" url = false ∧ prependurl url = "http://" +:+ url).
Proof.
  assert (str_in "://" (prependurl url) = true) as Hin.
  { unfold prependurl. destruct (str_in "://" url) eqn:E; [done |].
    apply str_in_spec. by exists "http", url. }
  split; [done |]. split; [| split].
  - unfold prependurl at 1. by rewrite Hin.
  - unfold prependurl. destruct (str_in "://" url).
    + by exists "".
    + by exists "http://".
  - unfold prependurl. by destruct (str_in "://" url).
Qed.

Lemma lstrip_head chars s c rest :
  lstrip chars s = String c rest → in_chars c chars = false.
Proof.
  induction s as [| d s IH]; cbn; [done |].
  destruct (in_chars d chars) eqn:E; [done |].
  by intros [= <- _].
Qed.

Lemma rstrip_first chars c rest :
  rstrip chars (String c rest) = ""
  ∨ ∃ kept, rstrip chars (String c rest) = String c kept.
Proof.
  cbn. destruct (rstrip chars rest); [| by right; eexists].
  destruct (in_chars c chars); [by left | by right; eexists].
Qed.

Lemma rstrip_last chars s d :
  last_char (rstrip chars s) = Some d → in_chars d chars = false.
Proof.
  revert d. induction s as [| c s IH]; intros d; cbn [rstrip]; [done |].
  destruct (rstrip chars s) as [| x kept] eqn:E.
  - destruct (in_chars c chars) eqn:Ec; [done |]. cbn. by intros [= <-].
  - intros H. apply IH.
    change (last_char (String c (String x kept)))
      with (match last_char (String x kept) with
            | Some d => Some d
            | None => Some c
            end) in H.
    destruct (last_char (String x kept)) eqn:El; [done |].
    cbn in El. by destruct (last_char kept).
Qed.

Lemma rstrip_id chars s d :
  last_char s = Some d → in_chars d chars = false → rstrip chars s = s.
Proof.
  revert d. induction s as [| c s IH]; intros d; cbn [last_char rstrip]; [done |].
  destruct (last_char s) as [d' |] eqn:El.
  - intros [= ->] Hd. rewrite (IH d eq_refl Hd).
    destruct s; [done | reflexivity].
  - intros [= ->] Hd. destruct s as [| x s]; [by rewrite Hd |].
    cbn in El. by destruct (last_char s).
Qed.

Lemma strip_keeps_ends chars s : keeps_ends chars (strip chars s) = true.
Proof.
  unfold strip. destruct (lstrip chars s) as [| c rest] eqn:El; [done |].
  apply lstrip_head in El.
  destruct (rstrip_first chars c rest) as [-> | [kept Hk]]; [done |].
  pose proof (rstrip_last chars (String c rest)) as Hlast.
  rewrite Hk in *. unfold keeps_ends. rewrite El. cbn [negb andb].
  destruct (last_char (String c kept)) as [d |]; [| done].
  by rewrite (Hlast d eq_refl).
Qed.

Lemma strip_id chars s : strip chars s = s ↔ keeps_ends chars s = true.
Proof.
  split.
  - intros <-. apply strip_keeps_ends.
  - unfold keeps_ends, strip. destruct s as [| c rest]; [done |].
    intros [Hc Hl]%andb_prop. apply negb_true_iff in Hc.
    cbn [lstrip]. rewrite Hc.
    destruct (last_char (String c rest)) as [d |] eqn:El.
    + apply negb_true_iff in Hl. by apply (rstrip_id chars _ d).
    + cbn in El. by destruct (last_char rest).
Qed.

Lemma list_ascii_of_string_append (a b : string) :
  list_ascii_of_string (a +:+ b) =
    list_ascii_of_string a ++ list_ascii_of_string b.
Proof.
  induction a as [| c a IH]; [done |].
  rewrite append_cons. cbn [list_ascii_of_string]. by rewrite IH.
Qed.

Lemma append_inv_tail (a b suffix : string) :
  a +:+ suffix = b +:+ suffix → a = b.
Proof.
  intros H.
  apply (f_equal list_ascii_of_string) in H.
  rewrite !list_ascii_of_string_append in H.
  apply app_inv_tail in H.
  apply (f_equal string_of_list_ascii) in H.
  by rewrite !string_of_list_ascii_of_string in H.
Qed.

Lemma strip_http_prefix (host : string) :
  strip "http://" ("http://" +:+ host) = strip "http://" host.
Proof. reflexivity. Qed.

(** X2. The URLs of the two sockets, for an address "http://" followed by
    [host]: [address.strip("http://")] removes characters, not a prefix,
    so the URL is "ws://", [host] and the path exactly when [host] is
    empty or neither begins nor ends with one of the characters
    h, t, p, colon and slash. Whatever the address, the part of the URL
    between "ws://" and the path has no such character at either end. *)
Theorem socket_urls_host (host address : string) :
  (state_socket_url ("http://" +:+ host) =
     "ws://" +:+ host +:+ "/websocket/state"
   ↔ keeps_ends "http://" host = true)
  ∧ (applications_socket_url ("http://" +:+ host) =
       "ws://" +:+ host +:+ "/websocket/applications"
     ↔ keeps_ends "http://" host = true)
  ∧ ∃ kept,
      state_socket_url address = "ws://" +:+ kept +:+ "/websocket/state"
      ∧ applications_socket_url address =
          "ws://" +:+ kept +:+ "/websocket/applications"
      ∧ keeps_ends "http://" kept = true.
Proof.
  split; [| split].
  - unfold state_socket_url. rewrite strip_http_prefix, <- strip_id. split.
    + intros H. apply (inj (String.app "ws://")) in H.
      by apply append_inv_tail in H.
    + by intros ->.
  - unfold applications_socket_url. rewrite strip_http_prefix, <- strip_id. split.
    + intros H. apply (inj (String.app "ws://")) in H.
      by apply append_inv_tail in H.
    + by intros ->.
  - exists (strip "http://" address).
    split; [reflexivity |]. split; [reflexivity |]. apply strip_keeps_ends.
Qed.

(** A host that begins with one of the characters loses it: the socket of
    "http://test-rig-7" is opened at "ws://est-rig-7/websocket/state". *)
Lemma state_socket_url_loses_leading_t :
  state_socket_url (prependurl "test-rig-7") = "ws://est-rig-7/websocket/state".
Proof. reflexivity. Qed.

(** ** The status listener and the waits on the machine signals *)

Lemma on_status_message_delivered callback message self :
  on_status_message callback message self =
    match delivered_state callback message with
    | None => self
    | Some s =>
        with_signals (is_closing_or_ready s) (is_ready s) (is_not_ready s) self
    end.
Proof.
  unfold on_status_message, on_status_message_ops, delivered_state.
  destruct message as [m |]; [| done].
  destruct (match callback with Some f => f m | None => ret m end)
    as [e | m']; [done |].
  destruct (getitem m' "state") as [e | s]; [done |].
  unfold is_closing_or_ready, is_ready, is_not_ready.
  by destruct (py_eq s (PyStr "Ready")), (py_eq s (PyStr "Closing")).
Qed.

(** X3. The status listener never touches the wait engine or the
    registry: [app_wait_list], the events and queues of the waits, the
    applications and the state triggers are the same after any message.
    A message that is dropped -- it does not decode, the callback raises,
    or it has no ['state'] -- leaves the whole client as it was. *)
Theorem on_status_message_frame callback message self :
  let self' := on_status_message callback message self in
  app_wait_list self' = app_wait_list self
  ∧ events self' = events self
  ∧ queues self' = queues self
  ∧ applications self' = applications self
  ∧ state_triggers self' = state_triggers self
  ∧ (delivered_state callback message = None → self' = self).
Proof.
  cbv zeta. rewrite on_status_message_delivered.
  by destruct (delivered_state callback message).
Qed.

Lemma signal_wait_closed_form signal test callback timeout messages self :
  (∀ s self, signal (with_signals (is_closing_or_ready s) (is_ready s)
                       (is_not_ready s) self) = test s) →
  snd (signal_wait signal timeout callback messages self) =
    if signal self || existsb (delivers callback test) messages
    then Some true
    else match timeout with Some _ => Some false | None => None end.
Proof.
  intros Htest. revert self.
  induction messages as [| m messages IH]; intros self; cbn [signal_wait existsb].
  - rewrite orb_false_r. by destruct (signal self).
  - destruct (signal self) eqn:Es; [done |]. cbn [orb].
    rewrite IH, on_status_message_delivered. unfold delivers at 2.
    destruct (delivered_state callback m) as [s |].
    + rewrite Htest. by destruct (test s).
    + by rewrite Es.
Qed.

Lemma snd_option_map_ret (p : Client * option bool) :
  snd (let '(self, r) := p in (self, option_map (ret (A := bool)) r)) =
    option_map ret (snd p).
Proof. by destruct p. Qed.

(** X4. [wait_ready], in closed form. A failed read of the state is
    raised. When the state read is 'Ready' the call returns [True] at
    once. Otherwise it returns [True] when the ready signal is already set
    -- left by an earlier message, whatever the machine does now -- or when
    a message with state 'Ready' is taken before the deadline; else
    [False] at the deadline, and it does not return when there is no
    deadline. *)
Theorem wait_ready_outcome api timeout callback messages self :
  snd (wait_ready api timeout callback messages self) =
    match ready_for_testing api with
    | inl e => Some (raise e)
    | inr true => Some (ret true)
    | inr false =>
        if wait_ready_event self
           || existsb (delivers callback is_ready) messages
        then Some (ret true)
        else match timeout with Some _ => Some (ret false) | None => None end
    end.
Proof.
  unfold wait_ready. destruct (ready_for_testing api) as [e | [|]]; [done.. |].
  rewrite snd_option_map_ret,
    (signal_wait_closed_form wait_ready_event is_ready) by done.
  destruct (wait_ready_event self || _); [done |]. by destruct timeout.
Qed.

(** X5. [wait_not_ready], in closed form. A failed read is raised. When
    the state read is not 'Ready' the call returns [True] at once.
    Otherwise it returns [True] when the not-ready signal is already set
    or a message with another state than 'Ready' is taken before the
    deadline; else [False] at the deadline, and it does not return when
    there is no deadline. *)
Theorem wait_not_ready_outcome api timeout callback messages self :
  snd (wait_not_ready api timeout callback messages self) =
    match ready_for_testing api with
    | inl e => Some (raise e)
    | inr false => Some (ret true)
    | inr true =>
        if wait_not_ready_event self
           || existsb (delivers callback is_not_ready) messages
        then Some (ret true)
        else match timeout with Some _ => Some (ret false) | None => None end
    end.
Proof.
  unfold wait_not_ready. destruct (ready_for_testing api) as [e | [|]]; [done | | done].
  rewrite snd_option_map_ret,
    (signal_wait_closed_form wait_not_ready_event is_not_ready) by done.
  destruct (wait_not_ready_event self || _); [done |]. by destruct timeout.
Qed.

(** X6. [wait_closing], in closed form. The state is read once, and once
    more when the first read is not 'Closing'; a failed read is raised.
    The call returns [True] at once when the first read is 'Closing' or
    the second is 'Ready' -- so not when the machine goes from 'Ready' to
    'Closing' between the two reads. Otherwise it returns [True] when the
    closing signal is already set or a message with state 'Closing' or
    'Ready' is taken before the deadline; else [False] at the deadline,
    and it does not return when there is no deadline. *)
Theorem wait_closing_outcome api1 api2 timeout callback messages self :
  snd (wait_closing api1 api2 timeout callback messages self) =
    match state api1 with
    | inl e => Some (raise e)
    | inr s1 =>
        if py_eq s1 (PyStr "Closing") then Some (ret true)
        else
          match state api2 with
          | inl e => Some (raise e)
          | inr s2 =>
              if py_eq s2 (PyStr "Ready") then Some (ret true)
              else if wait_closing_event self
                      || existsb (delivers callback is_closing_or_ready) messages
              then Some (ret true)
              else match timeout with
                   | Some _ => Some (ret false)
                   | None => None
                   end
          end
    end.
Proof.
  unfold wait_closing, test_box_closing, ready_for_testing.
  destruct (state api1) as [e | s1]; [done |]. cbn [bind].
  destruct (py_eq s1 (PyStr "Closing")); [done |].
  destruct (state api2) as [e | s2]; [done |]. cbn [bind ret].
  destruct (py_eq s2 (PyStr "Ready")); [done |].
  rewrite snd_option_map_ret,
    (signal_wait_closed_form wait_closing_event is_closing_or_ready) by done.
  destruct (wait_closing_event self || _); [done |]. by destruct timeout.
Qed.

(** ** The wait engine leaves the machine signals and the registry alone *)

Lemma same_machine_side_refl self : same_machine_side self self.
Proof. by repeat split. Qed.

Lemma same_machine_side_trans a b c :
  same_machine_side a b → same_machine_side b c → same_machine_side a c.
Proof.
  intros (H1 & H2 & H3 & H4 & H5) (K1 & K2 & K3 & K4 & K5).
  repeat split; congruence.
Qed.

Lemma do_op_machine_side o self self' :
  do_op o self = inr self' → same_machine_side self self'.
Proof.
  destruct o as [e | q | q v | e | w | item]; cbn [do_op ret];
    try (intros [= <-]; by repeat split).
  destruct (list_remove item (app_wait_list self)) as [err | l]; [done |].
  intros [= <-]. by repeat split.
Qed.

Lemma run_ops_machine_side ops self :
  same_machine_side self (fst (run_ops ops self)).
Proof.
  revert self. induction ops as [| o ops IH]; intros self; cbn [run_ops].
  - apply same_machine_side_refl.
  - destruct (do_op o self) as [err | self'] eqn:Hdo;
      [apply same_machine_side_refl |].
    eapply same_machine_side_trans; [| apply IH].
    by apply (do_op_machine_side o).
Qed.

Lemma on_app_message_machine_side message self :
  same_machine_side self (on_app_message message self).
Proof. apply run_ops_machine_side. Qed.

Lemma app_wait_event_machine_side name state stop self :
  same_machine_side self (fst (app_wait_event name state stop self)).
Proof. apply run_ops_machine_side. Qed.

Lemma wait_during_machine_side e ops self :
  same_machine_side self (fst (wait_during e ops self)).
Proof.
  revert self. induction ops as [| o ops IH]; intros self; cbn [wait_during].
  - apply same_machine_side_refl.
  - destruct (do_op o self) as [err | self'] eqn:Hdo;
      [apply same_machine_side_refl |].
    apply do_op_machine_side in Hdo.
    destruct (event_is_set self' e); [done |].
    eapply same_machine_side_trans; [exact Hdo | apply IH].
Qed.

Lemma event_wait_ops_machine_side e timeout others self :
  same_machine_side self (fst (fst (event_wait_ops e timeout others self))).
Proof.
  revert self. induction others as [| a others IH]; intros self;
    cbn [event_wait_ops].
  - destruct (event_is_set self e); apply same_machine_side_refl.
  - destruct (event_is_set self e); [apply same_machine_side_refl |].
    pose proof (wait_during_machine_side e (activity_ops a self) self) as H.
    destruct (wait_during e (activity_ops a self) self) as [self' [rem |]];
      [done |].
    eapply same_machine_side_trans; [exact H | apply IH].
Qed.

Lemma wait_app_state_machine_side name state timeout others self :
  same_machine_side self (fst (wait_app_state name state timeout others self)).
Proof.
  unfold wait_app_state.
  pose proof (app_wait_event_machine_side name state true self) as H1.
  destruct (app_wait_event name state true self) as [self1 [err | [e q]]];
    [done |].
  pose proof (event_wait_ops_machine_side e timeout others self1) as H2.
  destruct (event_wait_ops e timeout others self1) as [[self2 [[|] |]] rem];
    cbn [fst] in *; try (eapply same_machine_side_trans; eassumption).
  assert (same_machine_side self self2) as H12
    by (eapply same_machine_side_trans; eassumption).
  destruct (queue_empty self2 q).
  { eapply same_machine_side_trans; [exact H12 | apply run_ops_machine_side]. }
  unfold queue_get. destruct (queue_items self2 q) as [| v rest]; [done |].
  assert (same_machine_side self
            (fst (run_ops rem (with_queues (<[q := rest]> (queues self2))
                                 self2)))) as H3.
  { eapply same_machine_side_trans; [exact H12 |].
    eapply same_machine_side_trans; [| apply run_ops_machine_side].
    by repeat split. }
  by destruct (negb (py_eq v state)).
Qed.

(** X7. The operations of the wait engine -- the application listener,
    [app_wait_event] and [wait_app_state], whatever they return or raise
    -- leave the three machine signals, the registry of applications and
    the state triggers as they were: the registry is read-only after
    [__init__]. *)
Theorem wait_engine_machine_side
    message name state stop_wait_on_error timeout others self :
  same_machine_side self (on_app_message message self)
  ∧ same_machine_side self
      (fst (app_wait_event name state stop_wait_on_error self))
  ∧ same_machine_side self
      (fst (wait_app_state name state timeout others self)).
Proof.
  split; [apply on_app_message_machine_side |].
  split; [apply app_wait_event_machine_side |].
  apply wait_app_state_machine_side.
Qed.

(** X8. The machine signals between two operations: in every state in
    which the client is left by [__init__] and by any sequence of
    completed operations -- status and application messages,
    registrations and waits -- the ready and the not-ready signals are
    not both set, and the closing signal is set whenever the ready signal
    is. This does not hold while a status message is being handled, where
    a waiting caller may be woken: with the not-ready signal set, the
    message 'Ready' takes the client through a state, after
    [wait_ready_event.set()], in which the ready and the not-ready signals
    are both set and the closing signal still has its former value. *)
Theorem reachable_signals self :
  reachable self →
  (wait_ready_event self && wait_not_ready_event self = false
   ∧ (wait_ready_event self = true → wait_closing_event self = true))
  ∧ ∀ callback message,
      delivered_state callback message = Some (PyStr "Ready") →
      wait_not_ready_event self = true →
      ∃ s, s ∈ signal_states (on_status_message_ops callback message) self
           ∧ wait_ready_event s = true
           ∧ wait_not_ready_event s = true
           ∧ wait_closing_event s = wait_closing_event self.
Proof.
  intros Hreach. split.
  - induction Hreach as [requests entities root self Hinit
                        | callback message self _ IH
                        | message self _ IH
                        | name state stop self _ IH
                        | name state timeout others self _ IH].
    + unfold __init__ in Hinit.
      destruct (register_entities requests entities ∅) as [e | apps]; [done |].
      cbn in Hinit.
      destruct (_get_actions requests root) as [e | triggers]; [done |].
      cbn in Hinit. by injection Hinit as <-.
    + rewrite on_status_message_delivered.
      destruct (delivered_state callback message) as [s |]; [| done].
      unfold is_closing_or_ready, is_ready, is_not_ready. cbn.
      by destruct (py_eq s (PyStr "Ready")), (py_eq s (PyStr "Closing")).
    + destruct (on_app_message_machine_side message self) as (-> & -> & -> & _).
      done.
    + destruct (app_wait_event_machine_side name state stop self)
        as (-> & -> & -> & _).
      done.
    + destruct (wait_app_state_machine_side name state timeout others self)
        as (-> & -> & -> & _).
      done.
  - intros callback message Hready Hnot.
    exists (signal_write WaitReady true self).
    split; [| by repeat split].
    unfold delivered_state in Hready. unfold on_status_message_ops.
    destruct message as [m |]; [| done].
    destruct (match callback with Some f => f m | None => ret m end)
      as [e | m']; [done |].
    destruct (getitem m' "state") as [e | state]; [done |].
    injection Hready as ->. cbn. right. left.
Qed.

(** ** The life of a wait: pending, then resolved once *)

Lemma event_is_set_lookup self e :
  event_is_set self e = true → events self !! e = Some true.
Proof.
  unfold event_is_set. destruct (events self !! e) as [[|] |]; cbn; done.
Qed.

Lemma queue_items_lookup self q v :
  queue_items self q = [v] → queues self !! q = Some [v].
Proof.
  unfold queue_items. destruct (queues self !! q) as [l |]; cbn; [| done].
  by intros ->.
Qed.

Lemma on_app_message_resolved_stable w v message self :
  pending_ok self → handle_resolved w v self →
  handle_resolved w v (on_app_message message self).
Proof.
  intros Hok (Hfree & Hset & Hq).
  destruct (on_app_message_cases message self)
    as [-> | (m & name & value & -> & Hn & Hv)]; [done |].
  destruct Hok as (Hev & _).
  rewrite (on_app_message_ok m name value) by done.
  split; [| split].
  - intros w' [_ Hin]%list_elem_of_filter. by apply Hfree.
  - rewrite event_is_set_with_app_wait_list. unfold event_is_set.
    rewrite resolve_all_events. case_decide; [done |].
    by rewrite (event_is_set_lookup _ _ Hset).
  - rewrite queue_items_with_app_wait_list, resolve_all_queue_items, Hq.
    rewrite filter_all_elem_none; [done |].
    intros y [_ Hy]%list_elem_of_filter Heq. by destruct (Hfree y Hy).
Qed.

Lemma app_wait_event_resolved_stable w v name state stop self :
  handle_resolved w v self →
  handle_resolved w v (fst (app_wait_event name state stop self)).
Proof.
  intros (Hfree & Hset & Hq).
  assert (wr_wait_event w ≠ fresh (dom (events self) : gset loc)) as Hne.
  { intros Heq. apply (is_fresh (dom (events self) : gset loc)).
    rewrite <- Heq. apply elem_of_dom.
    rewrite (event_is_set_lookup _ _ Hset). by eexists. }
  assert (wr_resolved_state w ≠ fresh (dom (queues self) : gset loc)) as Hnq.
  { intros Heq. apply (is_fresh (dom (queues self) : gset loc)).
    rewrite <- Heq. apply elem_of_dom.
    rewrite (queue_items_lookup _ _ _ Hq). by eexists. }
  rewrite app_wait_event_unfold.
  set (e' := fresh (dom (events self) : gset loc)) in *.
  set (q' := fresh (dom (queues self) : gset loc)) in *.
  assert (∀ self2,
            app_wait_list self2 = app_wait_list self →
            events self2 !! wr_wait_event w = events self !! wr_wait_event w →
            queues self2 !! wr_resolved_state w
              = queues self !! wr_resolved_state w →
            handle_resolved w v self2) as Hsame.
  { intros self2 Hl He Hqs. split; [by rewrite Hl | split].
    - unfold event_is_set in *. by rewrite He.
    - unfold queue_items in *. by rewrite Hqs. }
  destruct (applications self !! name) as [app |];
    [| apply Hsame; cbn; by rewrite ?lookup_insert_ne].
  destruct (prop_state (app_properties app)) as [cur |];
    [| apply Hsame; cbn; by rewrite ?lookup_insert_ne].
  destruct (py_in cur _); cbn [fst].
  - apply Hsame; cbn; by rewrite ?lookup_insert_ne.
  - split; [| split].
    + intros w' [Hin | [-> | []%elem_of_nil]%elem_of_cons]%elem_of_app.
      * by apply Hfree.
      * cbn. split; intros Heq; by rewrite Heq in *.
    + unfold event_is_set in *. cbn. by rewrite lookup_insert_ne.
    + unfold queue_items in *. cbn. by rewrite lookup_insert_ne.
Qed.

Lemma on_app_message_pending_step w message self :
  pending_ok self → handle_pending w self →
  handle_pending w (on_app_message message self)
  ∨ ∃ value,
      handle_resolved w value (on_app_message message self)
      ∧ py_eq (PyList (wr_state w)) value = true.
Proof.
  intros Hok (Hin & Hunset & Hempty).
  destruct (on_app_message_cases message self)
    as [-> | (m & name & value & -> & Hn & Hv)]; [by left |].
  destruct Hok as (Hev & Hq & Hst).
  rewrite (on_app_message_ok m name value) by done.
  set (hit := filter (λ w, resolves name value w) (app_wait_list self)).
  assert (∀ y, y ∈ hit → y ∈ app_wait_list self ∧ resolves name value y)
    as Hhit by (intros y Hy; by apply list_elem_of_filter in Hy as [? ?]).
  destruct (resolves name value w) eqn:Hw.
  - right. exists value.
    assert (w ∈ hit) as Hwhit
      by (apply list_elem_of_filter; by rewrite Hw).
    split; [| by apply andb_prop in Hw as [_ ?]].
    split; [| split].
    + intros w' [Hnot Hin']%list_elem_of_filter. split; intros Heq.
      * rewrite (NoDup_fmap_elem_inj wr_wait_event _ w' w Hev Hin' Hin Heq)
          in Hnot. by rewrite Hw in Hnot.
      * rewrite (NoDup_fmap_elem_inj wr_resolved_state _ w' w Hq Hin' Hin Heq)
          in Hnot. by rewrite Hw in Hnot.
    + rewrite event_is_set_with_app_wait_list. unfold event_is_set.
      rewrite resolve_all_events, decide_True; [done |].
      by apply list_elem_of_fmap_2.
    + rewrite queue_items_with_app_wait_list, resolve_all_queue_items, Hempty.
      rewrite (filter_fmap_eq_singleton wr_resolved_state hit w);
        [done | by apply NoDup_fmap_filter | done].
  - left. split; [| split].
    + apply list_elem_of_filter. split; [| done]. rewrite Hw. cbn. tauto.
    + rewrite event_is_set_with_app_wait_list. unfold event_is_set in *.
      rewrite resolve_all_events, decide_False; [done |].
      intros (y & Heq & Hy)%list_elem_of_fmap.
      destruct (Hhit y Hy) as [Hyin Hyr].
      rewrite <- (NoDup_fmap_elem_inj wr_wait_event _ w y Hev Hin Hyin Heq)
        in Hyr. by rewrite Hw in Hyr.
    + rewrite queue_items_with_app_wait_list, resolve_all_queue_items, Hempty.
      rewrite filter_all_elem_none; [done |].
      intros y Hy Heq. destruct (Hhit y Hy) as [Hyin Hyr].
      rewrite (NoDup_fmap_elem_inj wr_resolved_state _ y w Hq Hyin Hin Heq)
        in Hyr. by rewrite Hw in Hyr.
Qed.

Lemma app_wait_event_pending_stable w name state stop self :
  pending_ok self → handle_pending w self →
  handle_pending w (fst (app_wait_event name state stop self)).
Proof.
  intros Hok (Hin & Hunset & Hempty).
  destruct (pending_event_allocated self w Hok Hin) as [Hne Hnq].
  rewrite app_wait_event_unfold.
  set (e' := fresh (dom (events self) : gset loc)) in *.
  set (q' := fresh (dom (queues self) : gset loc)) in *.
  assert (∀ self2 extra,
            app_wait_list self2 = app_wait_list self ++ extra →
            events self2 !! wr_wait_event w = events self !! wr_wait_event w →
            queues self2 !! wr_resolved_state w
              = queues self !! wr_resolved_state w →
            handle_pending w self2) as Hsame.
  { intros self2 extra Hl He Hqs. split; [| split].
    - rewrite Hl. apply elem_of_app. by left.
    - unfold event_is_set in *. by rewrite He.
    - unfold queue_items in *. by rewrite Hqs. }
  destruct (applications self !! name) as [app |];
    [| apply (Hsame _ []); cbn; by rewrite ?lookup_insert_ne, ?app_nil_r].
  destruct (prop_state (app_properties app)) as [cur |];
    [| apply (Hsame _ []); cbn; by rewrite ?lookup_insert_ne, ?app_nil_r].
  destruct (py_in cur _); cbn [fst].
  - apply (Hsame _ []); cbn; by rewrite ?lookup_insert_ne, ?app_nil_r.
  - eapply Hsame; cbn; [reflexivity | by rewrite lookup_insert_ne
                                     | by rewrite lookup_insert_ne].
Qed.

Lemma run_activity_handle_life P w a self :
  pending_ok self →
  (∀ v, py_eq (PyList (wr_state w)) v = true → P v) →
  handle_life P w self → handle_life P w (run_activity a self).
Proof.
  intros Hok HP [Hpending | (v & Hres & Hv)].
  - destruct a as [message | name state stop]; cbn [run_activity].
    + destruct (on_app_message_pending_step w message self Hok Hpending)
        as [? | (value & ? & ?)]; [by left |].
      right. exists value. split; [done | by apply HP].
    + left. by apply app_wait_event_pending_stable.
  - right. exists v. split; [| done].
    destruct a as [message | name state stop]; cbn [run_activity].
    + by apply on_app_message_resolved_stable.
    + by apply app_wait_event_resolved_stable.
Qed.

Lemma run_handle_life P w others self :
  pending_ok self →
  (∀ v, py_eq (PyList (wr_state w)) v = true → P v) →
  handle_life P w self → handle_life P w (run others self).
Proof.
  intros Hok HP. revert self Hok.
  induction others as [| a others IH]; intros self Hok Hlife; [done |].
  apply IH.
  - by apply run_activity_pending_ok.
  - by apply run_activity_handle_life.
Qed.

Lemma app_wait_event_handle_life (P : pyval → Prop)
    name state (stop : bool) self self1 e q :
  pending_ok self →
  app_wait_event name state stop self = (self1, ret (e, q)) →
  (∀ app cur,
     applications self !! name = Some app →
     prop_state (app_properties app) = Some cur →
     py_in cur (state :: (if stop then error_states else [])) = true →
     P cur) →
  handle_life P
    {| wr_name := name;
       wr_state := state :: (if stop then error_states else []);
       wr_wait_event := e; wr_resolved_state := q |} self1
  ∧ events self !! e = None.
Proof.
  intros Hok Hcall HP.
  pose proof (λ w, pending_event_allocated self w Hok) as Hfresh.
  rewrite app_wait_event_unfold in Hcall.
  destruct (applications self !! name) as [app |] eqn:Happ; [| done].
  destruct (prop_state (app_properties app)) as [cur |] eqn:Hcur; [| done].
  destruct (py_in cur _) eqn:Hin; injection Hcall as <- <- <-.
  - split; [| apply not_elem_of_dom, is_fresh].
    right. exists cur. split; [| by apply (HP app cur)].
    split; [| split]; cbn.
    + intros w' Hw'. by apply Hfresh.
    + unfold event_is_set. cbn. by rewrite lookup_insert_eq.
    + unfold queue_items. cbn. rewrite lookup_insert_eq. cbn.
      unfold queue_items. cbn. by rewrite lookup_insert_eq.
  - split; [| apply not_elem_of_dom, is_fresh].
    left. split; [| split]; cbn.
    + apply elem_of_app. right. by left.
    + unfold event_is_set. cbn. by rewrite lookup_insert_eq.
    + unfold queue_items. cbn. by rewrite lookup_insert_eq.
Qed.

Lemma py_size_list (l : list pyval) :
  py_size (PyList l) = S (foldr (λ x n, (py_size x + n)%nat) 0%nat l).
Proof. reflexivity. Qed.

Lemma py_eq_list_cons x l y m :
  py_eq (PyList (x :: l)) (PyList (y :: m)) =
    py_eq x y && py_eq (PyList l) (PyList m).
Proof. reflexivity. Qed.

Lemma py_eq_size (a b : pyval) : py_eq a b = true → py_size a = py_size b.
Proof.
  revert b. induction a as [| x | z | s | l IH] using pyval_nested_ind;
    intros b H; destruct b as [| y | z' | s' | m]; try discriminate H;
    try reflexivity.
  revert m H. induction IH as [| x r Hx _ IHr]; intros m H.
  - by destruct m.
  - destruct m as [| y m]; [discriminate H |].
    rewrite py_eq_list_cons in H. apply andb_prop in H as [Hxy Hrm].
    specialize (IHr m Hrm). rewrite !py_size_list in *. cbn [foldr].
    rewrite (Hx y Hxy). lia.
Qed.

(** A value equal to a list is unequal to the first element of the list. *)
Lemma py_eq_list_head_ne x l v :
  py_eq (PyList (x :: l)) v = true → py_eq v x = false.
Proof.
  intros H. destruct (py_eq v x) eqn:E; [| done].
  apply py_eq_size in H, E. rewrite py_size_list in H. cbn [foldr] in H. lia.
Qed.

Lemma run_resolved_stable w v others self :
  pending_ok self → handle_resolved w v self →
  handle_resolved w v (run others self).
Proof.
  revert self. induction others as [| a others IH]; intros self Hok Hres;
    [done |].
  apply IH.
  - by apply run_activity_pending_ok.
  - destruct a as [message | name state stop]; cbn [run_activity].
    + by apply on_app_message_resolved_stable.
    + by apply app_wait_event_resolved_stable.
Qed.

(** ** A caller woken in the middle of what another thread does *)

Lemma activity_ops_run a self :
  run_activity a self = fst (run_ops (activity_ops a self) self).
Proof. by destruct a. Qed.

Lemma resolve_ops_avoids value (l : list WaitRequest) e q :
  (∀ y, y ∈ l → wr_wait_event y ≠ e ∧ wr_resolved_state y ≠ q) →
  Forall (op_avoids e q) (flat_map (resolve_ops value) l).
Proof.
  induction l as [| y l IH]; intros H; cbn [flat_map resolve_ops List.app].
  - constructor.
  - destruct (H y) as [He Hq]; [left |].
    constructor; [exact Hq |]. constructor; [exact He |].
    apply IH. intros z Hz. apply H. by right.
Qed.

Lemma remove_ops_avoids (l : list WaitRequest) e q :
  Forall (op_avoids e q) (ListRemove <$> l).
Proof.
  induction l as [| y l IH]; [constructor |].
  rewrite fmap_cons. by constructor.
Qed.

(** The calls of the listener, seen from a pending entry: they leave its
    event and its queue alone, or the message resolves the entry, by a
    [put] on its queue followed by a [set] of its event, and the calls
    before and after those two leave the event and the queue alone. *)
Lemma on_app_message_ops_pending w message self :
  pending_ok self → handle_pending w self →
  Forall (op_avoids (wr_wait_event w) (wr_resolved_state w))
    (on_app_message_ops message self)
  ∨ ∃ pre value post,
      on_app_message_ops message self =
        pre ++ [QueuePut (wr_resolved_state w) value;
                EventSet (wr_wait_event w)] ++ post
      ∧ Forall (op_avoids (wr_wait_event w) (wr_resolved_state w)) pre
      ∧ snd (run_ops pre self) = ret tt
      ∧ Forall (op_avoids (wr_wait_event w) (wr_resolved_state w)) post
      ∧ py_eq (PyList (wr_state w)) value = true.
Proof.
  intros (Hev & Hq & Hst) (Hin & _ & _).
  destruct message as [m |]; [| left; constructor].
  destruct (getitem m "name") as [err | name] eqn:Hn.
  { left. rewrite (on_app_message_ops_malformed m self err) by (by left).
    constructor. }
  destruct (getitem m "value") as [err | value] eqn:Hv.
  { left. rewrite (on_app_message_ops_malformed m self err) by (by right).
    constructor. }
  rewrite (on_app_message_ops_ok m name value) by done.
  set (hit := filter (λ w, resolves name value w) (app_wait_list self)).
  assert (∀ y, y ∈ hit → y ∈ app_wait_list self ∧ resolves name value y)
    as Hhit by (intros y Hy; by apply list_elem_of_filter in Hy as [? ?]).
  assert (∀ y, y ∈ hit → y ≠ w →
            wr_wait_event y ≠ wr_wait_event w
            ∧ wr_resolved_state y ≠ wr_resolved_state w) as Hother.
  { intros y Hy Hne. destruct (Hhit y Hy) as [Hyin _]. split; intros Heq.
    - by apply Hne, (NoDup_fmap_elem_inj wr_wait_event (app_wait_list self)).
    - by apply Hne, (NoDup_fmap_elem_inj wr_resolved_state (app_wait_list self)). }
  destruct (resolves name value w) eqn:Hw.
  - right.
    assert (w ∈ hit) as Hwhit by (apply list_elem_of_filter; by rewrite Hw).
    assert (NoDup hit) as Hnd.
    { apply (NoDup_fmap_1 wr_wait_event). by apply NoDup_fmap_filter. }
    apply list_elem_of_split in Hwhit as (h1 & h2 & Hsplit).
    rewrite Hsplit in Hnd. apply NoDup_app in Hnd as (_ & Hh1 & Hh2).
    apply NoDup_cons in Hh2 as [Hh2 _].
    exists (flat_map (resolve_ops value) h1), value,
           (flat_map (resolve_ops value) h2 ++ (ListRemove <$> hit)).
    split; [| split; [| split; [| split]]].
    + rewrite Hsplit at 1. rewrite flat_map_app. cbn [flat_map resolve_ops].
      by rewrite <- !app_assoc.
    + apply resolve_ops_avoids. intros y Hy. apply Hother.
      * rewrite Hsplit. apply elem_of_app. by left.
      * intros ->. apply (Hh1 w Hy). left.
    + by rewrite run_ops_resolve.
    + apply Forall_app. split; [| apply remove_ops_avoids].
      apply resolve_ops_avoids. intros y Hy. apply Hother.
      * rewrite Hsplit. apply elem_of_app. right. by right.
      * by intros ->.
    + by apply andb_prop in Hw as [_ ?].
  - left. apply Forall_app. split; [| apply remove_ops_avoids].
    apply resolve_ops_avoids. intros y Hy. apply Hother; [done |].
    intros ->. destruct (Hhit w Hy) as [_ Hr]. by rewrite Hw in Hr.
Qed.

Lemma on_app_message_ops_resolved w v message self :
  handle_resolved w v self →
  Forall (op_avoids (wr_wait_event w) (wr_resolved_state w))
    (on_app_message_ops message self).
Proof.
  intros (Hfree & _ & _).
  destruct message as [m |]; [| constructor].
  destruct (getitem m "name") as [err | name] eqn:Hn.
  { rewrite (on_app_message_ops_malformed m self err) by (by left).
    constructor. }
  destruct (getitem m "value") as [err | value] eqn:Hv.
  { rewrite (on_app_message_ops_malformed m self err) by (by right).
    constructor. }
  rewrite (on_app_message_ops_ok m name value) by done.
  apply Forall_app. split; [| apply remove_ops_avoids].
  apply resolve_ops_avoids. intros y [_ Hy]%list_elem_of_filter.
  by apply Hfree.
Qed.

(** A registration creates a new event and a new queue: it leaves those
    that exist alone. *)
Lemma app_wait_event_ops_avoids name state stop self e q :
  is_Some (events self !! e) → is_Some (queues self !! q) →
  Forall (op_avoids e q) (fst (app_wait_event_ops name state stop self)).
Proof.
  intros He Hq.
  assert (fresh (dom (events self) : gset loc) ≠ e) as Hne.
  { intros <-. by apply (is_fresh (dom (events self) : gset loc)), elem_of_dom. }
  assert (fresh (dom (queues self) : gset loc) ≠ q) as Hnq.
  { intros <-. by apply (is_fresh (dom (queues self) : gset loc)), elem_of_dom. }
  unfold app_wait_event_ops.
  destruct (applications self !! name) as [app |];
    [| by repeat constructor].
  destruct (prop_state (app_properties app)) as [cur |];
    [| by repeat constructor].
  match goal with |- context [py_in cur ?l] => destruct (py_in cur l) end;
    by repeat constructor.
Qed.

Lemma handle_life_allocated P w self :
  pending_ok self → handle_life P w self →
  is_Some (events self !! wr_wait_event w)
  ∧ is_Some (queues self !! wr_resolved_state w).
Proof.
  intros (_ & _ & Hst) [(Hin & _ & _) | (v & (_ & Hset & Hq) & _)].
  - destruct (Hst w Hin) as [-> ->]. by split.
  - rewrite (event_is_set_lookup _ _ Hset), (queue_items_lookup _ _ _ Hq).
    by split.
Qed.

(** What another thread does, seen from a wait: its calls leave the event
    and the queue of the wait alone, or the wait is pending and they
    resolve it, the [put] on its queue first, the [set] of its event
    next. *)
Lemma activity_ops_shape P w a self :
  pending_ok self → handle_life P w self →
  Forall (op_avoids (wr_wait_event w) (wr_resolved_state w))
    (activity_ops a self)
  ∨ (handle_pending w self
     ∧ ∃ pre value post,
         activity_ops a self =
           pre ++ [QueuePut (wr_resolved_state w) value;
                   EventSet (wr_wait_event w)] ++ post
         ∧ Forall (op_avoids (wr_wait_event w) (wr_resolved_state w)) pre
         ∧ snd (run_ops pre self) = ret tt
         ∧ Forall (op_avoids (wr_wait_event w) (wr_resolved_state w)) post
         ∧ py_eq (PyList (wr_state w)) value = true).
Proof.
  intros Hok Hlife.
  destruct a as [message | name state stop]; cbn [activity_ops].
  - destruct Hlife as [Hpending | (v & Hres & _)].
    + destruct (on_app_message_ops_pending w message self Hok Hpending)
        as [? | ?]; [by left | by right].
    + left. by apply (on_app_message_ops_resolved w v).
  - left. destruct (handle_life_allocated P w self Hok Hlife) as [He Hq].
    by apply app_wait_event_ops_avoids.
Qed.

Lemma handle_life_set P w self :
  handle_life P w self → event_is_set self (wr_wait_event w) = true →
  ∃ v, queue_items self (wr_resolved_state w) = [v] ∧ P v.
Proof.
  intros [(_ & Hunset & _) | (v & (_ & _ & Hq) & Hv)] Hset.
  - by rewrite Hunset in Hset.
  - by exists v.
Qed.

(** In every state that the client goes through while another thread
    does something, the queue of a wait holds one value when its event is
    set. *)
Lemma activity_states P w a self s :
  pending_ok self → handle_life P w self →
  s ∈ states_of (activity_ops a self) self →
  event_is_set s (wr_wait_event w) = true →
  ∃ v, queue_items s (wr_resolved_state w) = [v].
Proof.
  intros Hok Hlife Hs Hset.
  assert (∀ ops s0 s1,
            Forall (op_avoids (wr_wait_event w) (wr_resolved_state w)) ops →
            s1 ∈ states_of ops s0 →
            event_is_set s1 (wr_wait_event w) = event_is_set s0 (wr_wait_event w)
            ∧ queue_items s1 (wr_resolved_state w)
                = queue_items s0 (wr_resolved_state w)) as Hsame.
  { intros ops s0 s1 Hops Hin.
    destruct (states_of_avoids _ _ ops s0 s1 Hops Hin) as [He Hq].
    unfold event_is_set, queue_items. by rewrite He, Hq. }
  destruct (activity_ops_shape P w a self Hok Hlife)
    as [Hav | ((_ & Hunset & Hempty) & pre & value & post
               & Hops & Hpre & Hrun & Hpost & _)].
  - destruct (Hsame _ _ _ Hav Hs) as [He Hq]. rewrite He in Hset. rewrite Hq.
    destruct (handle_life_set P w self Hlife Hset) as (v & ? & _). by exists v.
  - rewrite Hops in Hs.
    apply states_of_app_elem in Hs as [Hs | [_ Hs]].
    { destruct (Hsame _ _ _ Hpre Hs) as [He _]. by rewrite He, Hunset in Hset. }
    destruct (Hsame pre self (fst (run_ops pre self)) Hpre) as [He1 Hq1];
      [apply states_of_end |].
    rewrite Hunset in He1. rewrite Hempty in Hq1.
    cbn [List.app states_of do_op ret] in Hs.
    apply elem_of_cons in Hs as [-> | Hs]; [by rewrite He1 in Hset |].
    apply elem_of_cons in Hs as [-> | Hs].
    { change (event_is_set (queue_put _ _ ?s) ?e) with (event_is_set s e) in Hset.
      by rewrite He1 in Hset. }
    destruct (Hsame _ _ _ Hpost Hs) as [_ Hq]. rewrite Hq.
    exists value. unfold queue_items at 1. cbn.
    rewrite lookup_insert_eq. cbn. by rewrite Hq1.
Qed.

(** The same, over everything the other threads do. *)
Lemma history_states P w others self s :
  pending_ok self →
  (∀ v, py_eq (PyList (wr_state w)) v = true → P v) →
  handle_life P w self →
  s ∈ history others self →
  event_is_set s (wr_wait_event w) = true →
  ∃ v, queue_items s (wr_resolved_state w) = [v].
Proof.
  intros Hok HP. revert self Hok.
  induction others as [| a others IH]; intros self Hok Hlife; cbn [history].
  - intros [-> | []%elem_of_nil]%elem_of_cons Hset.
    destruct (handle_life_set P w self Hlife Hset) as (v & ? & _). by exists v.
  - intros [Hs | Hs]%elem_of_app.
    + by apply (activity_states P w a self).
    + apply (IH (run_activity a self)); [| | done].
      * by apply run_activity_pending_ok.
      * by apply run_activity_handle_life.
Qed.

(** [Event.wait] on the event of a wait. When it gives true, the caller
    goes on in a state in which the event is set and the queue holds one
    value; what the thread that woke it has still to do leaves the event
    and the queue alone, and ends in a state that the client reaches after
    whole activities. When it gives false, or does not return, the other
    threads have done all of [others] and the event is not set. *)
Lemma event_wait_ops_spec P w timeout others self self2 r remaining :
  pending_ok self →
  (∀ v, py_eq (PyList (wr_state w)) v = true → P v) →
  handle_life P w self →
  event_wait_ops (wr_wait_event w) timeout others self = (self2, r, remaining) →
  Forall (op_avoids (wr_wait_event w) (wr_resolved_state w)) remaining
  ∧ (∃ done, fst (run_ops remaining self2) = run done self)
  ∧ self2 ∈ history others self
  ∧ match r with
    | Some true =>
        event_is_set self2 (wr_wait_event w) = true
        ∧ ∃ v, queue_items self2 (wr_resolved_state w) = [v] ∧ P v
    | _ =>
        remaining = [] ∧ self2 = run others self
        ∧ event_is_set self2 (wr_wait_event w) = false
        ∧ (r = None ↔ timeout = None)
    end.
Proof.
  intros Hok HP. revert self Hok.
  induction others as [| a others IH]; intros self Hok Hlife;
    cbn [event_wait_ops history].
  - destruct (event_is_set self (wr_wait_event w)) eqn:Hset.
    + intros [= <- <- <-]. split; [constructor |].
      split; [by exists [] |]. split; [left |]. split; [done |].
      by apply (handle_life_set P).
    + intros [= <- <- <-]. split; [constructor |].
      split; [by exists [] |]. split; [left |].
      destruct timeout; by repeat split.
  - destruct (event_is_set self (wr_wait_event w)) eqn:Hset.
    { intros [= <- <- <-]. split; [constructor |].
      split; [by exists [] |].
      split; [apply elem_of_app; left; apply states_of_head |].
      split; [done |]. by apply (handle_life_set P). }
    destruct (activity_ops_shape P w a self Hok Hlife)
      as [Hav | ((_ & _ & Hempty) & pre & value & post
                 & Hops & Hpre & Hrun & Hpost & Hvalue)].
    + rewrite (wait_during_avoids _ _ _ _ Hav Hset), <- activity_ops_run.
      intros Hwait.
      destruct (IH (run_activity a self)
                  (run_activity_pending_ok a self Hok)
                  (run_activity_handle_life P w a self Hok HP Hlife) Hwait)
        as (Hrem & (done & Hdone) & Hhist & Hr).
      split; [done |]. split; [by exists (a :: done) |].
      split; [apply elem_of_app; by right |]. done.
    + destruct (wait_during (wr_wait_event w) (activity_ops a self) self)
        as [self' [rem |]] eqn:Hwait.
      2:{ rewrite Hops, (wait_during_resolve _ _ _ _ _ _ Hpre Hrun Hset)
            in Hwait. done. }
      intros [= <- <- <-].
      destruct (wait_during_woken _ _ _ _ _ Hwait) as (Hset' & Hin & Hend).
      rewrite Hops, (wait_during_resolve _ _ _ _ _ _ Hpre Hrun Hset) in Hwait.
      injection Hwait as Hself' Hrem. subst rem.
      split; [done |].
      split; [exists [a]; by rewrite Hend, <- activity_ops_run |].
      split; [apply elem_of_app; by left |].
      split; [done |]. exists value. split; [| by apply HP].
      rewrite <- Hself'. unfold queue_items at 1. cbn.
      rewrite lookup_insert_eq.
      destruct (run_ops_avoids _ _ pre self Hpre) as [_ Hq].
      cbn. unfold queue_items. rewrite Hq.
      fold (queue_items self (wr_resolved_state w)). by rewrite Hempty.
Qed.

Lemma wait_app_state_pending_ok name state timeout others self :
  pending_ok self →
  pending_ok (fst (wait_app_state name state timeout others self)).
Proof.
  intros Hok. unfold wait_app_state.
  pose proof (app_wait_event_pending_ok name state true self Hok) as Hok1.
  destruct (app_wait_event name state true self)
    as [self1 [err | [e q]]] eqn:Hcall; [done |].
  cbn [fst] in Hok1.
  destruct (app_wait_event_handle_life (λ _, True) _ _ _ _ _ _ _ Hok Hcall)
    as [Hlife _]; [done |].
  destruct (event_wait_ops e timeout others self1) as [[self2 r] rem] eqn:Hwait.
  destruct (event_wait_ops_spec (λ _, True) _ timeout others self1 self2 r rem
              Hok1 ltac:(done) Hlife Hwait)
    as (Hrem & (done & Hdone) & _ & Hr).
  cbn [wr_wait_event wr_resolved_state] in Hrem, Hr.
  destruct r as [[|] |].
  - destruct Hr as (Hset & v & Hq & _).
    unfold queue_empty, queue_get. rewrite Hq. cbv zeta.
    assert (pending_ok
              (fst (run_ops rem
                      (with_queues (<[q := []]> (queues self2)) self2))))
      as Hok3; [| by destruct (negb (py_eq v state))].
    rewrite (run_ops_queue_commute e q [] rem self2 Hrem). cbn [fst].
    destruct (run_ops_avoids e q rem self2 Hrem) as [He _].
    rewrite Hdone in *.
    pose proof (run_pending_ok done self1 Hok1) as (Hev & Hqs & Hst).
    destruct (run_handle_life (λ _, True) _ done self1 Hok1 ltac:(done) Hlife)
      as [(_ & Hunset & _) | (v' & (Hfree & _ & _) & _)].
    { cbn [wr_wait_event] in Hunset. unfold event_is_set in *.
      rewrite He, Hset in Hunset. done. }
    split; [done | split; [done |]].
    intros w' Hin. destruct (Hst w' Hin) as [Hew Hqw]. split; [done |].
    cbn. rewrite lookup_insert_ne; [done |].
    intros Heq. by destruct (Hfree w' Hin) as [_ Hne].
  - destruct Hr as (-> & -> & _). by apply run_pending_ok.
  - destruct Hr as (-> & -> & _). by apply run_pending_ok.
Qed.

Lemma reachable_pending_ok self : reachable self → pending_ok self.
Proof.
  induction 1.
  - by eapply init_pending_ok.
  - by apply on_status_message_pending_ok.
  - by apply on_app_message_pending_ok.
  - by apply app_wait_event_pending_ok.
  - by apply wait_app_state_pending_ok.
Qed.

(** ** The resolved state is in the queue when the event is set *)

(** The states of a registration, from the creation of the event and of
    the queue to the return: the event is set in the last one only, after
    the [put]. *)
Lemma app_wait_event_ops_states name state stop self ops e q s :
  app_wait_event_ops name state stop self = (ops, ret (e, q)) →
  s ∈ states_of ops self →
  event_is_set s e = true →
  ∃ v, queue_items s q = [v].
Proof.
  unfold app_wait_event_ops.
  pose proof (proj1 (not_elem_of_dom (events self) _)
                (is_fresh (dom (events self) : gset loc))) as Hfresh.
  destruct (applications self !! name) as [app |]; [| done].
  destruct (prop_state (app_properties app)) as [cur |]; [| done].
  match goal with |- context [py_in cur ?l] => destruct (py_in cur l) end;
    intros [= <- <- <-]; cbn [List.app states_of do_op ret]; intros Hs;
    repeat (apply elem_of_cons in Hs as [-> | Hs]);
    try (by apply elem_of_nil in Hs);
    unfold event_is_set; cbn; rewrite ?Hfresh, ?lookup_insert_eq; cbn;
    try discriminate.
  intros _. exists cur. unfold queue_items. cbn.
  rewrite lookup_insert_eq. cbn. unfold queue_items. cbn.
  by rewrite lookup_insert_eq.
Qed.

Lemma two_waiters_pending_ok : pending_ok two_waiters.
Proof.
  repeat apply app_wait_event_pending_ok. apply example_client_pending_ok.
Qed.

(** C9. The pair (event, queue) returned by [app_wait_event], on a client
    whose pending entries own their event and queue. The client is followed
    call by call -- every [put], [set], [append] and [remove] on the shared
    objects is a state of its own, and a caller blocked in [wait] may be
    woken in any of them. In every state of the registration itself, and
    in every state the client goes through afterwards, whatever the
    listener and the other callers do, the queue holds one item, the
    resolved state, when the event is set: on both paths the [put] comes
    before the [set]. So when [wait_event.wait] returns true in
    [wait_app_state], [resolved_state.empty()] is false in the state in
    which the caller is woken: the [return] under that test is never
    reached. *)
Theorem event_set_queue_nonempty
    name state stop_wait_on_error self self1 e q :
  pending_ok self →
  app_wait_event name state stop_wait_on_error self = (self1, ret (e, q)) →
  (∀ s,
     s ∈ states_of
           (fst (app_wait_event_ops name state stop_wait_on_error self)) self →
     event_is_set s e = true →
     ∃ v, queue_items s q = [v])
  ∧ (∀ others s,
       s ∈ history others self1 →
       event_is_set s e = true →
       ∃ v, queue_items s q = [v])
  ∧ (∀ timeout others self2,
       event_wait e timeout others self1 = (self2, Some true) →
       queue_empty self2 q = false).
Proof.
  intros Hok Hcall.
  assert (pending_ok self1) as Hok1.
  { replace self1 with (fst (app_wait_event name state stop_wait_on_error self))
      by (by rewrite Hcall).
    by apply app_wait_event_pending_ok. }
  destruct (app_wait_event_handle_life (λ _, True) _ _ _ _ _ _ _ Hok Hcall)
    as [Hlife _]; [done |].
  split; [| split].
  - intros s Hs Hset. unfold app_wait_event in Hcall.
    destruct (app_wait_event_ops name state stop_wait_on_error self)
      as [ops r] eqn:Hops.
    cbn [fst snd] in *. injection Hcall as _ ->.
    by apply (app_wait_event_ops_states _ _ _ _ _ _ _ _ Hops Hs).
  - intros others s Hs Hset.
    by apply (history_states (λ _, True) _ others self1 s Hok1 ltac:(done) Hlife).
  - intros timeout others self2 Hwait. unfold event_wait in Hwait.
    destruct (event_wait_ops e timeout others self1) as [[s2 r] rem] eqn:Hops.
    cbn [fst] in Hwait. injection Hwait as -> ->.
    destruct (event_wait_ops_spec (λ _, True) _ timeout others self1 self2 _ rem
                Hok1 ltac:(done) Hlife Hops)
      as (_ & _ & _ & _ & v & Hq & _).
    cbn [wr_resolved_state] in Hq. unfold queue_empty. by rewrite Hq.
Qed.

Lemma event_set_queue_nonempty_witness :
  queue_empty
    (fst (event_wait 2%nat None [Listener (Some idle_list_message)]
            three_waiters))
    2%nat = false.
Proof.
  refine (proj2 (proj2 (event_set_queue_nonempty
                   "app1" (PyStr "Idle") false two_waiters three_waiters
                   2%nat 2%nat two_waiters_pending_ok _))
            None [Listener (Some idle_list_message)] _ _).
  - vm_compute. reflexivity.
  - vm_compute. reflexivity.
Defined.

(** ** Outcome of [wait_app_state] *)

(** C2. [wait_app_state name state timeout], once its registration has
    returned the pair (event, queue): when [wait_event.wait(timeout)] gives
    false -- the event was not set before the deadline -- the call raises
    [TimeoutError], built from [state] and [name]; when it gives true, the
    queue holds the resolved value [v], and the call returns if [v == state]
    and raises [ApplicationError], built from [name], [state] and [v],
    otherwise. *)
Theorem wait_app_state_outcome
    name state timeout others self self1 e q self2 (woken : bool) :
  pending_ok self →
  app_wait_event name state true self = (self1, ret (e, q)) →
  event_wait e timeout others self1 = (self2, Some woken) →
  if woken
  then ∃ v,
         queue_items self2 q = [v]
         ∧ snd (wait_app_state name state timeout others self) =
             Some (if py_eq v state then ret tt
                   else raise (ApplicationError
                     "The application '{}' waiting for the state '{}' went to state '{}'"
                     [PyStr name; state; v]))
  else snd (wait_app_state name state timeout others self) =
         Some (raise (TimeoutError
           "Timeout while waiting for the state '{}' for the application '{}'"
           [state; PyStr name])).
Proof.
  intros Hok Hcall Hwait.
  assert (pending_ok self1) as Hok1.
  { replace self1 with (fst (app_wait_event name state true self))
      by (by rewrite Hcall).
    by apply app_wait_event_pending_ok. }
  destruct (app_wait_event_handle_life (λ _, True) _ _ _ _ _ _ _ Hok Hcall)
    as [Hlife _]; [done |].
  unfold event_wait in Hwait.
  destruct (event_wait_ops e timeout others self1) as [[s2 r] rem] eqn:Hops.
  cbn [fst] in Hwait. injection Hwait as -> ->.
  destruct (event_wait_ops_spec (λ _, True) _ timeout others self1 self2 _ rem
              Hok1 ltac:(done) Hlife Hops)
    as (_ & _ & _ & Hr).
  unfold wait_app_state. rewrite Hcall.
  change (ret (e, q)) with (inr (e, q) : result (loc * loc)). cbv beta iota.
  rewrite Hops. destruct woken; [| reflexivity].
  destruct Hr as (_ & v & Hq & _). cbn [wr_resolved_state] in Hq.
  exists v. split; [done |].
  unfold queue_empty, queue_get. rewrite Hq. cbv zeta.
  by destruct (py_eq v state).
Qed.

Lemma wait_app_state_outcome_witness :
  snd (wait_app_state "app2" (PyStr "Running") (Some 1) [] example_client) =
    Some (raise (ApplicationError
      "The application '{}' waiting for the state '{}' went to state '{}'"
      [PyStr "app2"; PyStr "Running"; PyStr "Error"])).
Proof.
  destruct (wait_app_state_outcome
              "app2" (PyStr "Running") (Some 1) [] example_client
              (fst (app_wait_event "app2" (PyStr "Running") true example_client))
              0%nat 0%nat
              (fst (app_wait_event "app2" (PyStr "Running") true example_client))
              true example_client_pending_ok)
    as (v & Hq & Hres).
  - vm_compute. reflexivity.
  - vm_compute. reflexivity.
  - vm_compute in Hq. injection Hq as <-. exact Hres.
Defined.

(** X9. The life of a wait, for a pair (event, queue) returned by
    [app_wait_event] on a client whose pending entries own their event and
    queue, whatever the other threads do afterwards. The wait is either
    pending -- its entry is in [app_wait_list], its event is unset and its
    queue is empty -- or resolved -- no entry of the list holds its event
    or its queue, the event is set and the queue holds one value. Once
    resolved with a value it stays resolved with that value: a wait is
    resolved at most once. *)
Theorem wait_resolved_at_most_once
    name state (stop_wait_on_error : bool) self self1 e q :
  pending_ok self →
  app_wait_event name state stop_wait_on_error self = (self1, ret (e, q)) →
  let w := {| wr_name := name;
              wr_state :=
                state :: (if stop_wait_on_error then error_states else []);
              wr_wait_event := e; wr_resolved_state := q |} in
  ∀ others,
    let self2 := run others self1 in
    (handle_pending w self2 ∨ ∃ v, handle_resolved w v self2)
    ∧ ∀ v more, handle_resolved w v self2 →
                handle_resolved w v (run more self2).
Proof.
  intros Hok Hcall w others self2.
  assert (pending_ok self1) as Hok1.
  { replace self1 with (fst (app_wait_event name state stop_wait_on_error self))
      by (by rewrite Hcall).
    by apply app_wait_event_pending_ok. }
  destruct (app_wait_event_handle_life (λ _, True) _ _ _ _ _ _ _ Hok Hcall)
    as [Hlife _]; [done |].
  assert (pending_ok self2) as Hok2 by (by apply run_pending_ok).
  split.
  - destruct (run_handle_life (λ _, True) w others self1 Hok1)
      as [? | (v & ? & _)]; [done | done | by left | right; by exists v].
  - intros v more Hres. by apply run_resolved_stable.
Qed.

Lemma wait_resolved_at_most_once_witness :
  let self1 := fst (app_wait_event "app1" (PyStr "Idle") false example_client) in
  let w := {| wr_name := "app1"; wr_state := [PyStr "Idle"];
              wr_wait_event := 0%nat; wr_resolved_state := 0%nat |} in
  handle_pending w (run [Listener (Some running_message)] self1)
  ∨ ∃ v, handle_resolved w v (run [Listener (Some running_message)] self1).
Proof.
  exact (proj1 (wait_resolved_at_most_once "app1" (PyStr "Idle") false
                  example_client
                  (fst (app_wait_event "app1" (PyStr "Idle") false
                          example_client))
                  0%nat 0%nat example_client_pending_ok eq_refl
                  [Listener (Some running_message)])).
Defined.

(** ** What [wait_app_state] returns and raises *)

Lemma app_wait_event_raises name state stop self self1 err :
  app_wait_event name state stop self = (self1, inl err) →
  (err = KeyError name ∧ applications self !! name = None)
  ∨ (err = KeyError "state"
     ∧ ∃ app, applications self !! name = Some app
              ∧ prop_state (app_properties app) = None).
Proof.
  rewrite app_wait_event_unfold.
  destruct (applications self !! name) as [app |] eqn:Happ.
  - destruct (prop_state (app_properties app)) as [cur |] eqn:Hcur.
    + by destruct (py_in cur _).
    + intros [= _ <-]. right. split; [done |]. by exists app.
  - intros [= _ <-]. by left.
Qed.

Lemma event_wait_ops_timed_out e timeout others self self' remaining :
  event_wait_ops e timeout others self = (self', Some false, remaining) →
  event_is_set self' e = false ∧ timeout ≠ None.
Proof.
  revert self. induction others as [| a others IH]; intros self;
    cbn [event_wait_ops].
  - destruct (event_is_set self e) eqn:E; [done |].
    destruct timeout; [| done]. by intros [= <-].
  - destruct (event_is_set self e) eqn:E; [done |].
    destruct (wait_during e (activity_ops a self) self) as [self1 [rem |]];
      [done | apply IH].
Qed.

(** X10. A wait that times out is not withdrawn: when [wait_app_state]
    raises [TimeoutError], the entry it registered -- for [name], with
    the target state and the three error states -- is still in
    [app_wait_list], its event unset. *)
Theorem wait_app_state_timeout_leaves_entry
    name state timeout others self self' fmt args :
  pending_ok self →
  wait_app_state name state timeout others self
    = (self', Some (raise (TimeoutError fmt args))) →
  ∃ w, w ∈ app_wait_list self'
       ∧ wr_name w = name
       ∧ wr_state w =
           [state; PyStr "error"; PyStr "Error"; PyStr "ErrorState"]
       ∧ event_is_set self' (wr_wait_event w) = false
       ∧ events self !! wr_wait_event w = None.
Proof.
  intros Hok. unfold wait_app_state.
  pose proof (app_wait_event_pending_ok name state true self Hok) as Hok1.
  destruct (app_wait_event name state true self)
    as [self1 [err | [e q]]] eqn:Hcall.
  { apply app_wait_event_raises in Hcall as [[-> _] | [-> _]]; done. }
  cbn [fst] in Hok1.
  destruct (app_wait_event_handle_life (λ _, True) _ _ _ _ _ _ _ Hok Hcall)
    as [Hlife Hfresh]; [done |].
  destruct (event_wait_ops e timeout others self1) as [[self2 r] rem] eqn:Hwait.
  destruct (event_wait_ops_spec (λ _, True) _ timeout others self1 self2 r rem
              Hok1 ltac:(done) Hlife Hwait)
    as (_ & _ & _ & Hr).
  destruct r as [[|] |].
  - destruct (queue_empty self2 q); [done |].
    destruct (queue_get q self2) as [[v self3] |]; [| done].
    cbv zeta. by destruct (negb (py_eq v state)).
  - intros [= <- _ _]. destruct Hr as (_ & -> & Hunset & _).
    destruct (run_handle_life (λ _, True) _ others self1 Hok1 ltac:(done) Hlife)
      as [(Hin & _ & _) | (v & (_ & Hset & _) & _)].
    + eexists. split; [exact Hin |]. by repeat split.
    + by rewrite Hunset in Hset.
  - done.
Qed.

Lemma wait_app_state_timeout_leaves_entry_witness :
  ∃ w, w ∈ app_wait_list
             (fst (wait_app_state "app1" (PyStr "Running") (Some 1)
                     [Listener (Some running_message)] example_client))
       ∧ wr_name w = "app1".
Proof.
  destruct (wait_app_state_timeout_leaves_entry
              "app1" (PyStr "Running") (Some 1)
              [Listener (Some running_message)] example_client
              (fst (wait_app_state "app1" (PyStr "Running") (Some 1)
                      [Listener (Some running_message)] example_client))
              timeout_fmt [PyStr "Running"; PyStr "app1"]
              example_client_pending_ok)
    as (w & Hin & Hname & _).
  - vm_compute. reflexivity.
  - by exists w.
Defined.

(** X11. On a client whose pending entries own their event and queue,
    [wait_app_state] returns normally only when the state recorded in the
    registry for the application already equals the target state. A wait
    that the listener resolves never makes it return: the value the
    listener queues equals the whole list of acceptable states, which
    differs from the target state. *)
Theorem wait_app_state_returns_only_from_snapshot
    name state timeout others self :
  pending_ok self →
  snd (wait_app_state name state timeout others self) = Some (ret tt) →
  ∃ app current_state,
    applications self !! name = Some app
    ∧ prop_state (app_properties app) = Some current_state
    ∧ py_eq current_state state = true.
Proof.
  intros Hok. unfold wait_app_state.
  pose proof (app_wait_event_pending_ok name state true self Hok) as Hok1.
  destruct (app_wait_event name state true self)
    as [self1 [err | [e q]]] eqn:Hcall; [done |].
  cbn [fst] in Hok1.
  set (P := λ v : pyval,
         (∃ app, applications self !! name = Some app
                 ∧ prop_state (app_properties app) = Some v)
         ∨ py_eq (PyList (state :: error_states)) v = true).
  destruct (app_wait_event_handle_life P _ _ _ _ _ _ _ Hok Hcall)
    as [Hlife _].
  { intros app cur Happ Hcur _. left. by exists app. }
  assert (∀ v, py_eq (PyList (state :: error_states)) v = true → P v) as HP
    by (intros v Hv; by right).
  destruct (event_wait_ops e timeout others self1) as [[self2 r] rem] eqn:Hwait.
  destruct (event_wait_ops_spec P
              {| wr_name := name; wr_state := state :: error_states;
                 wr_wait_event := e; wr_resolved_state := q |}
              timeout others self1 self2 r rem Hok1 HP Hlife Hwait)
    as (_ & _ & _ & Hr).
  destruct r as [[|] |]; [| done | done].
  destruct Hr as (_ & v & Hq & Hv). cbn [wr_resolved_state] in Hq.
  unfold queue_empty, queue_get. rewrite Hq. cbv zeta.
  destruct (py_eq v state) eqn:Hvs; [| done]. intros _.
  destruct Hv as [(app & Happ & Hcur) | Hlist].
  - by exists app, v.
  - apply py_eq_list_head_ne in Hlist. by rewrite Hlist in Hvs.
Qed.

Lemma wait_app_state_returns_only_from_snapshot_witness :
  ∃ app current_state,
    applications example_client !! "app1" = Some app
    ∧ prop_state (app_properties app) = Some current_state
    ∧ py_eq current_state (PyStr "Stopped") = true.
Proof.
  apply (wait_app_state_returns_only_from_snapshot
           "app1" (PyStr "Stopped") None [] example_client
           example_client_pending_ok).
  vm_compute. reflexivity.
Defined.

(** X12. What the exceptions of [wait_app_state] tell the caller. A
    [TimeoutError] is raised only when a timeout was given, and carries
    the format of the source applied to the state and the name. An
    [ApplicationError] carries the format of the source applied to the
    name, the target state and the resolved value, which differs from the
    target state. A [KeyError] means that the name is not in the registry
    or that the application has no ['state'] property. *)
Theorem wait_app_state_raises name state timeout others self :
  (∀ fmt args,
     snd (wait_app_state name state timeout others self)
       = Some (raise (TimeoutError fmt args)) →
     timeout ≠ None
     ∧ fmt = "Timeout while waiting for the state '{}' for the application '{}'"
     ∧ args = [state; PyStr name])
  ∧ (∀ fmt args,
       snd (wait_app_state name state timeout others self)
         = Some (raise (ApplicationError fmt args)) →
       fmt = "The application '{}' waiting for the state '{}' went to state '{}'"
       ∧ ∃ v, args = [PyStr name; state; v] ∧ py_eq v state = false)
  ∧ (∀ key,
       snd (wait_app_state name state timeout others self)
         = Some (raise (KeyError key)) →
       (key = name ∧ applications self !! name = None)
       ∨ (key = "state"
          ∧ ∃ app, applications self !! name = Some app
                   ∧ prop_state (app_properties app) = None)).
Proof.
  assert (∀ ex,
            snd (wait_app_state name state timeout others self)
              = Some (raise ex) →
            (ex = KeyError name ∧ applications self !! name = None)
            ∨ (ex = KeyError "state"
               ∧ ∃ app, applications self !! name = Some app
                        ∧ prop_state (app_properties app) = None)
            ∨ (ex = TimeoutError timeout_fmt [state; PyStr name]
               ∧ timeout ≠ None)
            ∨ ∃ v, ex = ApplicationError application_fmt [PyStr name; state; v]
                   ∧ py_eq v state = false) as Hcases.
  { intros ex. unfold wait_app_state.
    destruct (app_wait_event name state true self)
      as [self1 [err | [e q]]] eqn:Hcall.
    { intros [= <-].
      apply app_wait_event_raises in Hcall as [? | ?];
        [by left | right; by left]. }
    destruct (event_wait_ops e timeout others self1)
      as [[self2 [[|] |]] rem] eqn:Hwait.
    - destruct (queue_empty self2 q); [done |].
      destruct (queue_get q self2) as [[v self3] |]; [| done]. cbv zeta.
      destruct (py_eq v state) eqn:Hv; [done |].
      intros [= <-]. do 3 right. by exists v.
    - intros [= <-]. apply event_wait_ops_timed_out in Hwait as [_ Ht].
      right. right. by left.
    - done. }
  split; [| split].
  - intros fmt args H.
    destruct (Hcases _ H) as [[[=] _] | [[[=] _] | [[[= -> ->] Ht] | [v [[=] _]]]]].
    done.
  - intros fmt args H.
    destruct (Hcases _ H)
      as [[[=] _] | [[[=] _] | [[[=] _] | [v [[= -> ->] Hv]]]]].
    split; [done |]. by exists v.
  - intros key H.
    destruct (Hcases _ H)
      as [[[= ->] Hn] | [[[= ->] Hs] | [[[=] _] | [v [[=] _]]]]].
    + by left.
    + by right.
Qed.

Lemma wait_app_state_raises_witness :
  applications example_client !! "app9" = None.
Proof.
  destruct (proj2 (proj2 (wait_app_state_raises "app9" (PyStr "Running") None []
                            example_client)) "app9" eq_refl)
    as [[_ H] | [H _]]; [exact H | discriminate H].
Defined.

Lemma connected_client_reachable : reachable connected_client.
Proof.
  apply (reachable_init example_requests
           [example_entity "/apps/1" "app1" None]
           (example_entity "/apps/2" "machine" None)).
  reflexivity.
Qed.

Lemma reachable_signals_witness :
  wait_ready_event ready_client && wait_not_ready_event ready_client = false
  ∧ ∃ s, s ∈ signal_states
               (on_status_message_ops None
                  (Some (JObject [("state", PyStr "Ready")])))
               running_client
         ∧ wait_ready_event s = true
         ∧ wait_not_ready_event s = true
         ∧ wait_closing_event s = false.
Proof.
  split.
  - apply (reachable_signals ready_client).
    apply reachable_status, connected_client_reachable.
  - apply (proj2 (reachable_signals running_client
                    (reachable_status _ _ _ connected_client_reachable))
             None (Some (JObject [("state", PyStr "Ready")])));
      reflexivity.
Defined.

(** ** More on the application listener *)

(** X13. On a client whose pending entries own their event and queue,
    handling the same application message a second time changes nothing:
    the entries the message resolves are removed by the first handling. *)
Theorem on_app_message_idempotent message self :
  pending_ok self →
  on_app_message message (on_app_message message self)
    = on_app_message message self.
Proof.
  intros Hok.
  pose proof (on_app_message_pending_ok message self Hok) as (Hev' & _).
  destruct (on_app_message_cases message self)
    as [H | (m & name & value & -> & Hn & Hv)]; [by rewrite !H |].
  destruct Hok as (Hev & _).
  assert (app_wait_list (on_app_message (Some m) self) =
            filter (λ w, ¬ resolves name value w) (app_wait_list self)) as Hl
    by (by rewrite (on_app_message_ok m name value self Hev Hn Hv)).
  set (self1 := on_app_message (Some m) self) in *.
  assert (∀ w, w ∈ app_wait_list self1 → ¬ resolves name value w) as Hnone.
  { intros w. rewrite Hl. by intros [? _]%list_elem_of_filter. }
  rewrite (on_app_message_ok m name value self1 Hev' Hn Hv).
  rewrite (filter_all_elem_none (λ w, resolves name value w)) by done.
  rewrite (filter_all_elem (λ w, ¬ resolves name value w)) by done.
  cbn [foldl]. apply with_app_wait_list_same.
Qed.

Lemma on_app_message_idempotent_witness :
  on_app_message (Some idle_list_message)
    (on_app_message (Some idle_list_message) three_waiters)
    = on_app_message (Some idle_list_message) three_waiters.
Proof.
  exact (on_app_message_idempotent (Some idle_list_message) three_waiters
           three_waiters_pending_ok).
Defined.

Lemma list_remove_sublist item l l' :
  list_remove item l = ret l' → l' `sublist_of` l.
Proof.
  revert l'. induction l as [| x l IH]; intros l'; cbn [list_remove]; [done |].
  destruct (waitrequest_eq x item).
  - intros [= <-]. by apply sublist_cons.
  - destruct (list_remove item l) as [e | rest]; [done |].
    intros [= <-]. apply sublist_skip. by apply IH.
Qed.

Lemma run_ops_remove_store items self :
  events (fst (run_ops (ListRemove <$> items) self)) = events self
  ∧ queues (fst (run_ops (ListRemove <$> items) self)) = queues self
  ∧ app_wait_list (fst (run_ops (ListRemove <$> items) self))
      `sublist_of` app_wait_list self.
Proof.
  revert self. induction items as [| item items IH]; intros self;
    [done |].
  rewrite fmap_cons. cbn [run_ops do_op].
  destruct (list_remove item (app_wait_list self)) as [e | l] eqn:Hl; [done |].
  cbn [bind ret].
  destruct (IH (with_app_wait_list l self)) as (-> & -> & Hsub).
  repeat split. etrans; [exact Hsub |]. by apply list_remove_sublist in Hl.
Qed.

(** X14. What the application listener never does, on any client and for
    any message: it adds no entry to [app_wait_list] and keeps the order of
    those it leaves, it clears no event, and it takes nothing out of a
    queue -- the items a queue held are still at its front. *)
Theorem on_app_message_monotone message self :
  let self' := on_app_message message self in
  app_wait_list self' `sublist_of` app_wait_list self
  ∧ (∀ e, event_is_set self e = true → event_is_set self' e = true)
  ∧ (∀ q, queue_items self q `prefix_of` queue_items self' q).
Proof.
  cbv zeta.
  destruct (on_app_message_cases message self)
    as [-> | (m & name & value & -> & Hn & Hv)]; [done |].
  unfold on_app_message.
  rewrite (on_app_message_ops_ok m name value) by done.
  rewrite run_ops_app, run_ops_resolve.
  unfold ret. cbv beta iota.
  set (hit := filter (λ w, resolves name value w) (app_wait_list self)).
  destruct (run_ops_remove_store hit (foldl (resolve value) self hit))
    as (He & Hq & Hsub).
  rewrite resolve_all_app_wait_list in Hsub.
  split; [done |]. split.
  - intros e Hset. unfold event_is_set in *. rewrite He, resolve_all_events.
    by case_decide.
  - intros q. unfold queue_items at 2. rewrite Hq.
    fold (queue_items (foldl (resolve value) self hit) q).
    rewrite resolve_all_queue_items. by eexists.
Qed.

(** X15. A message that the application listener cannot use -- text that
    does not decode, a JSON value that is not an object, an object without
    ['name'] or without ['value'] -- is dropped: the client is unchanged,
    whatever entries are pending. *)
Theorem on_app_message_drops_malformed message self :
  message = None
  ∨ (∃ v, message = Some (JValue v))
  ∨ (∃ items, message = Some (JObject items)
              ∧ (assoc "name" items = None ∨ assoc "value" items = None)) →
  on_app_message message self = self.
Proof.
  intros [-> | [[v ->] | (items & -> & [H | H])]].
  - reflexivity.
  - by apply (on_app_message_malformed _ _ TypeError); left.
  - apply (on_app_message_malformed _ _ (KeyError "name")). left.
    cbn. by rewrite H.
  - apply (on_app_message_malformed _ _ (KeyError "value")). right.
    cbn. by rewrite H.
Qed.

Lemma on_app_message_drops_malformed_witness :
  on_app_message (Some (JObject [("name", PyStr "app1")])) three_waiters
    = three_waiters.
Proof.
  apply on_app_message_drops_malformed. right. right.
  exists [("name", PyStr "app1")]. split; [reflexivity |]. by right.
Defined.

(** X16. The entries that the application listener resolves, on a client
    whose pending entries own their event and queue: an entry whose name
    equals the name of the message and whose list of acceptable states, as
    a whole, equals the value of the message is removed from
    [app_wait_list], its event is set and its queue holds the value. *)
Theorem on_app_message_resolves message name value self w :
  pending_ok self →
  getitem message "name" = inr name →
  getitem message "value" = inr value →
  w ∈ app_wait_list self →
  py_eq (PyStr (wr_name w)) name = true →
  py_eq (PyList (wr_state w)) value = true →
  let self' := on_app_message (Some message) self in
  (w ∉ app_wait_list self')
  ∧ event_is_set self' (wr_wait_event w) = true
  ∧ queue_items self' (wr_resolved_state w) = [value].
Proof.
  intros Hok Hn Hv Hin Hname Hstate self'.
  assert (resolves name value w = true) as Hw
    by (unfold resolves; by rewrite Hname, Hstate).
  assert (handle_pending w self) as Hpending.
  { destruct Hok as (_ & _ & Hst). destruct (Hst w Hin) as [He Hq].
    split; [done |]. unfold event_is_set, queue_items. by rewrite He, Hq. }
  assert (w ∉ app_wait_list self') as Hout.
  { unfold self'. destruct Hok as (Hev & _).
    rewrite (on_app_message_ok message name value) by done.
    intros [Hnot _]%list_elem_of_filter. by rewrite Hw in Hnot. }
  split; [done |].
  destruct (on_app_message_pending_step w (Some message) self Hok Hpending)
    as [(Hin' & _) | (value' & (_ & Hset & Hq) & _)]; [done |].
  split; [done |].
  destruct Hok as (Hev & Hqs & Hst). unfold self'.
  rewrite (on_app_message_ok message name value) by done.
  rewrite queue_items_with_app_wait_list, resolve_all_queue_items.
  destruct Hpending as (_ & _ & ->).
  rewrite (filter_fmap_eq_singleton wr_resolved_state _ w);
    [done | by apply NoDup_fmap_filter |].
  apply list_elem_of_filter. by rewrite Hw.
Qed.

Lemma on_app_message_resolves_witness :
  let self' := on_app_message (Some idle_list_message) three_waiters in
  event_is_set self' 2%nat = true
  ∧ queue_items self' 2%nat = [PyList [PyStr "Idle"]].
Proof.
  refine (proj2 (on_app_message_resolves idle_list_message (PyStr "app1")
                   (PyList [PyStr "Idle"]) three_waiters
                   {| wr_name := "app1"; wr_state := [PyStr "Idle"];
                      wr_wait_event := 2%nat; wr_resolved_state := 2%nat |}
                   three_waiters_pending_ok eq_refl eq_refl _ eq_refl eq_refl)).
  vm_compute. repeat constructor.
Defined.

(** ** Registration that fails, and the invariant of the pending entries *)

(** X17. [app_wait_event] for a name that is not in the registry, or for
    an application whose properties have no ['state']: the call raises
    [KeyError] and registers nothing -- [app_wait_list] is unchanged and so
    is every event and every queue of the store. *)
Theorem app_wait_event_unknown name state (stop_wait_on_error : bool) self :
  applications self !! name = None
  ∨ (∃ app, applications self !! name = Some app
            ∧ prop_state (app_properties app) = None) →
  let '(self', r) := app_wait_event name state stop_wait_on_error self in
  (r = raise (KeyError name) ∨ r = raise (KeyError "state"))
  ∧ app_wait_list self' = app_wait_list self
  ∧ (∀ e, event_is_set self' e = event_is_set self e)
  ∧ (∀ q, queue_items self' q = queue_items self q).
Proof.
  intros H. rewrite app_wait_event_unfold.
  assert (∀ e, default false
                 (<[fresh (dom (events self) : gset loc) := false]>
                    (events self) !! e)
               = default false (events self !! e)) as He.
  { intros e. destruct (decide (e = fresh (dom (events self) : gset loc)))
      as [-> | Hne].
    - rewrite lookup_insert_eq.
      by rewrite (proj1 (not_elem_of_dom _ _) (is_fresh _)).
    - by rewrite lookup_insert_ne. }
  assert (∀ q, default []
                 (<[fresh (dom (queues self) : gset loc) := []]>
                    (queues self) !! q)
               = default [] (queues self !! q)) as Hq.
  { intros q. destruct (decide (q = fresh (dom (queues self) : gset loc)))
      as [-> | Hne].
    - rewrite lookup_insert_eq.
      by rewrite (proj1 (not_elem_of_dom _ _) (is_fresh _)).
    - by rewrite lookup_insert_ne. }
  destruct H as [-> | (app & -> & ->)].
  - split; [by left |]. by repeat split.
  - split; [by right |]. by repeat split.
Qed.

Lemma app_wait_event_unknown_witness :
  app_wait_list
    (fst (app_wait_event "app9" (PyStr "Running") true two_waiters))
    = app_wait_list two_waiters.
Proof.
  pose proof (app_wait_event_unknown "app9" (PyStr "Running") true two_waiters
                (or_introl eq_refl)) as H.
  destruct (app_wait_event "app9" (PyStr "Running") true two_waiters)
    as [self' r].
  exact (proj1 (proj2 H)).
Defined.



(** ** The action map and the registry *)

Lemma last_named_app k l b :
  last_named k (l ++ b) =
    match last_named k b with
    | Some a => Some a
    | None => last_named k l
    end.
Proof.
  induction l as [| x l IH]; cbn [app last_named].
  - by destruct (last_named k b).
  - rewrite IH. by destruct (last_named k b).
Qed.

Lemma add_actions_lookup acc l k :
  add_actions acc l !! k =
    match last_named k l with
    | Some a => Some (_get_fields a)
    | None => acc !! k
    end.
Proof.
  unfold add_actions. revert acc.
  induction l as [| x l IH]; intros acc; cbn [foldl last_named]; [done |].
  rewrite IH. destruct (last_named k l) as [a |]; [done |].
  destruct (String.eqb_spec (action_name x) k) as [<- | Hne].
  - apply lookup_insert_eq.
  - by apply lookup_insert_ne.
Qed.

(** X19. The action map that [_get_actions] builds from a detail
    document that was fetched and decoded and that has ['actions']: under
    each name, the closure of the last action of that name, the blocked
    actions counting after the others (so a blocked action replaces an
    action of the same name); a name that no action carries is not a key.
    A method other than "POST" gives the GET closure. *)
Theorem get_actions_map requests entity r document l :
  requests_get requests (entity_href entity) ∅ = ret r →
  response_json r = Some document →
  doc_actions document = Some l →
  ∃ actions,
    _get_actions requests entity = ret actions
    ∧ ∀ k,
        actions !! k =
          match last_named k
                  (l ++ default [] (doc_blocked_actions document)) with
          | Some action =>
              Some (if String.eqb (action_method action) "POST"
                    then post_func action else get_func action)
          | None => None
          end.
Proof.
  intros Hget Hjson Hl. unfold _get_actions. rewrite Hget. unfold bind, ret.
  rewrite Hjson, Hl.
  destruct (doc_blocked_actions document) as [blocked |]; cbn [default];
    eexists; (split; [reflexivity |]); intros k.
  - rewrite last_named_app, !add_actions_lookup, lookup_empty. unfold id.
    destruct (last_named k blocked); [done |]. by destruct (last_named k l).
  - rewrite app_nil_r, add_actions_lookup, lookup_empty.
    by destruct (last_named k l).
Qed.

Lemma get_actions_map_witness :
  ∃ actions,
    _get_actions example_requests (example_entity "/apps/1" "app1" None)
      = ret actions
    ∧ actions !! "status" = Some (get_func status_action)
    ∧ actions !! "stop" = None.
Proof.
  destruct (get_actions_map example_requests
              (example_entity "/apps/1" "app1" None)
              (ok_response
                 (Some {| doc_actions := Some [start_action; status_action];
                          doc_blocked_actions := None |}))
              {| doc_actions := Some [start_action; status_action];
                 doc_blocked_actions := None |}
              [start_action; status_action] eq_refl eq_refl eq_refl)
    as (actions & Hcall & Hk).
  exists actions. split; [exact Hcall |].
  split; [exact (Hk "status") | exact (Hk "stop")].
Defined.

Lemma register_entity_step requests entity
    (apps apps' : gmap string Application) :
  register_entity requests entity apps = ret apps' →
  let name := prop_name (entity_properties entity) in
  (∀ k, is_Some (apps !! k) → is_Some (apps' !! k))
  ∧ is_Some (apps' !! name)
  ∧ (∀ k a, apps' !! k = Some a →
       apps !! k = Some a
       ∨ (k ∈ entity_keys entity
          ∧ app_properties a = entity_properties entity
          ∧ _get_actions requests entity = ret (app_actions a)))
  ∧ (∀ k, is_Some (apps !! k) →
       prop_alias (entity_properties entity) ≠ Some (Some k) →
       apps' !! k = apps !! k)
  ∧ (apps !! name = None →
     ∃ actions,
       _get_actions requests entity = ret actions
       ∧ apps' !! name =
           Some {| app_actions := actions;
                   app_properties := entity_properties entity |}).
Proof.
  intros Hreg name. unfold register_entity in Hreg. fold name in Hreg.
  assert (∀ key actions,
            key ∈ entity_keys entity →
            (is_Some (apps !! key) →
             prop_alias (entity_properties entity) = Some (Some key)) →
            _get_actions requests entity = ret actions →
            apps' = <[key := {| app_actions := actions;
                                app_properties := entity_properties entity |}]>
                      apps →
            (∀ k, is_Some (apps !! k) → is_Some (apps' !! k))
            ∧ (∀ k a, apps' !! k = Some a →
                 apps !! k = Some a
                 ∨ (k ∈ entity_keys entity
                    ∧ app_properties a = entity_properties entity
                    ∧ _get_actions requests entity = ret (app_actions a)))
            ∧ (∀ k, is_Some (apps !! k) →
                 prop_alias (entity_properties entity) ≠ Some (Some k) →
                 apps' !! k = apps !! k)) as Hinsert.
  { intros key actions Hkey Hcollide Hact ->. split; [| split].
    - intros k Hk. apply lookup_insert_is_Some'. by right.
    - intros k a. destruct (decide (key = k)) as [<- | Hne].
      + rewrite lookup_insert_eq. intros [= <-]. right. by repeat split.
      + rewrite lookup_insert_ne by done. by left.
    - intros k Hk Halias. destruct (decide (key = k)) as [<- | Hne].
      + by destruct Halias, Hcollide.
      + by rewrite lookup_insert_ne. }
  destruct (apps !! name) as [old |] eqn:Hname.
  - destruct (prop_alias (entity_properties entity)) as [[a |] |] eqn:Halias;
      cbn [alias_key] in Hreg; [| | done].
    + destruct (String.eqb_spec a "") as [-> | Hne].
      * injection Hreg as <-. rewrite Hname.
        split; [done |]. split; [done |]. split; [by left |]. by split.
      * destruct (_get_actions requests entity) as [e | actions] eqn:Hact;
          [done |].
        injection Hreg as Hreg. symmetry in Hreg.
        destruct (Hinsert a actions) as (H1 & H2 & H3); [| done.. |].
        { unfold entity_keys. rewrite Halias.
          apply String.eqb_neq in Hne. rewrite Hne. right. by left. }
        split; [done |]. split; [apply H1; by rewrite Hname |].
        split; [done |]. by split.
    + injection Hreg as <-. rewrite Hname.
      split; [done |]. split; [done |]. split; [by left |]. by split.
  - destruct (_get_actions requests entity) as [e | actions] eqn:Hact; [done |].
    injection Hreg as Hreg. symmetry in Hreg.
    destruct (Hinsert name actions) as (H1 & H2 & H3); [| | done.. |].
    { by left. }
    { rewrite Hname. by intros [? ?]. }
    split; [done |]. split; [subst apps'; by rewrite lookup_insert_eq |].
    split; [done |]. split; [done |].
    intros _. exists actions. split; [done |].
    subst apps'. by rewrite lookup_insert_eq.
Qed.

Lemma register_entities_app requests pre post
    (apps : gmap string Application) :
  register_entities requests (pre ++ post) apps =
    (let* apps1 := register_entities requests pre apps in
     register_entities requests post apps1).
Proof.
  revert apps. induction pre as [| e pre IH]; intros apps; [done |].
  cbn [app register_entities].
  destruct (register_entity requests e apps) as [err | apps1]; [done |].
  cbn [bind]. apply IH.
Qed.

Lemma register_entities_registry_lemma requests entities
    (apps apps' : gmap string Application) :
  register_entities requests entities apps = ret apps' →
  (∀ k, is_Some (apps !! k) → is_Some (apps' !! k))
  ∧ (∀ e, e ∈ entities →
       is_Some (apps' !! prop_name (entity_properties e)))
  ∧ (∀ k a, apps' !! k = Some a →
       apps !! k = Some a
       ∨ ∃ e, e ∈ entities
              ∧ k ∈ entity_keys e
              ∧ app_properties a = entity_properties e
              ∧ _get_actions requests e = ret (app_actions a)).
Proof.
  revert apps. induction entities as [| e entities IH]; intros apps;
    cbn [register_entities].
  - intros [= <-]. split; [done |]. split; [by intros e []%elem_of_nil |].
    intros k a Hk. by left.
  - destruct (register_entity requests e apps) as [err | apps1] eqn:Hstep;
      [done |].
    cbn [bind]. intros Hrest.
    destruct (register_entity_step _ _ _ _ Hstep) as (M1 & N1 & O1 & _ & _).
    destruct (IH apps1 Hrest) as (M & N & O).
    split; [| split].
    + intros k Hk. by apply M, M1.
    + intros e' [-> | Hin]%elem_of_cons; [by apply M | by apply N].
    + intros k a Hk. destruct (O k a Hk) as [Hold | (e' & Hin & Hrest')].
      * destruct (O1 k a Hold) as [? | (? & ? & ?)]; [by left |].
        right. exists e. split; [by left | done].
      * right. exists e'. split; [by right | done].
Qed.


(** X20. The registry after the loop of [__init__] has gone through
    [entities] without raising, from any registry [apps]: every key that
    was registered is still registered, the canonical name of every entity
    is registered, and every entry is one that was there before or holds
    the properties and the resolved actions of an entity of the list, under
    its canonical name or its non-empty alias. *)
Theorem register_entities_registry requests entities
    (apps apps' : gmap string Application) :
  register_entities requests entities apps = ret apps' →
  (∀ k, is_Some (apps !! k) → is_Some (apps' !! k))
  ∧ (∀ e, e ∈ entities →
       is_Some (apps' !! prop_name (entity_properties e)))
  ∧ (∀ k a, apps' !! k = Some a →
       apps !! k = Some a
       ∨ ∃ e, e ∈ entities
              ∧ k ∈ entity_keys e
              ∧ app_properties a = entity_properties e
              ∧ _get_actions requests e = ret (app_actions a)).
Proof.
  revert apps. induction entities as [| e entities IH]; intros apps;
    cbn [register_entities].
  - intros [= <-]. split; [done |]. split; [by intros e []%elem_of_nil |].
    intros k a Hk. by left.
  - destruct (register_entity requests e apps) as [err | apps1] eqn:Hstep;
      [done |].
    cbn [bind]. intros Hrest.
    destruct (register_entity_step _ _ _ _ Hstep) as (M1 & N1 & O1 & _ & _).
    destruct (IH apps1 Hrest) as (M & N & O).
    split; [| split].
    + intros k Hk. by apply M, M1.
    + intros e' [-> | Hin]%elem_of_cons; [by apply M | by apply N].
    + intros k a Hk. destruct (O k a Hk) as [Hold | (e' & Hin & Hrest')].
      * destruct (O1 k a Hold) as [? | (? & ? & ?)]; [by left |].
        right. exists e. split; [by left | done].
      * right. exists e'. split; [by right | done].
Qed.

Lemma register_entities_registry_witness :
  ∃ apps',
    register_entities example_requests
      [example_entity "/apps/1" "app" None;
       example_entity "/apps/2" "app" (Some "app-b")] ∅ = ret apps'
    ∧ is_Some (apps' !! "app").
Proof.
  assert (∃ apps',
            register_entities example_requests
              [example_entity "/apps/1" "app" None;
               example_entity "/apps/2" "app" (Some "app-b")] ∅ = ret apps')
    as [apps' Hloop] by (eexists; reflexivity).
  exists apps'. split; [exact Hloop |].
  apply (proj1 (proj2 (register_entities_registry _ _ _ _ Hloop))
           (example_entity "/apps/1" "app" None)).
  by left.
Defined.

Lemma register_entities_keeps_key requests post
    (apps apps' : gmap string Application) (n : string) :
  register_entities requests post apps = ret apps' →
  is_Some (apps !! n) →
  (∀ e, e ∈ post → prop_alias (entity_properties e) ≠ Some (Some n)) →
  apps' !! n = apps !! n.
Proof.
  revert apps. induction post as [| e post IH]; intros apps;
    cbn [register_entities].
  - by intros [= <-].
  - destruct (register_entity requests e apps) as [err | apps1] eqn:Hstep;
      [done |].
    cbn [bind]. intros Hrest Hn Halias.
    destruct (register_entity_step _ _ _ _ Hstep) as (M1 & _ & _ & K1 & _).
    rewrite (IH apps1 Hrest).
    + apply K1; [done |]. apply Halias. by left.
    + by apply M1.
    + intros e' Hin. apply Halias. by right.
Qed.

(** X21. The first entity of a canonical name keeps that name. When the
    loop of [__init__] goes through the entities without raising, and an
    entity [e] is the first whose canonical name is [n] -- [n] is not
    registered before the loop and no earlier entity has [n] as name or
    alias -- and no later entity has [n] as alias, then the entry under
    [n] holds the resolved actions and the properties of [e], whatever
    entities of the same name follow. *)
Theorem register_entities_first_occurrence requests pre e post
    (apps apps' : gmap string Application) :
  let n := prop_name (entity_properties e) in
  register_entities requests (pre ++ e :: post) apps = ret apps' →
  apps !! n = None →
  (∀ e', e' ∈ pre → n ∉ entity_keys e') →
  (∀ e', e' ∈ post → prop_alias (entity_properties e') ≠ Some (Some n)) →
  ∃ actions,
    _get_actions requests e = ret actions
    ∧ apps' !! n =
        Some {| app_actions := actions;
                app_properties := entity_properties e |}.
Proof.
  intros n Hloop Hfree Hpre Hpost.
  rewrite register_entities_app in Hloop.
  destruct (register_entities requests pre apps) as [err | apps1] eqn:H1;
    [done |].
  cbn [bind register_entities] in Hloop.
  destruct (register_entity requests e apps1) as [err | apps2] eqn:H2;
    [done |].
  cbn [bind] in Hloop.
  assert (apps1 !! n = None) as Hfree1.
  { destruct (apps1 !! n) as [a |] eqn:Ha; [| done].
    destruct (register_entities_registry_lemma _ _ _ _ H1) as (_ & _ & O).
    destruct (O n a Ha) as [Hold | (e' & Hin & Hkey & _)].
    - by rewrite Hfree in Hold.
    - by destruct (Hpre e' Hin). }
  destruct (register_entity_step _ _ _ _ H2) as (_ & _ & _ & _ & Hnew).
  destruct (Hnew Hfree1) as (actions & Hact & Hentry).
  exists actions. split; [done |].
  rewrite (register_entities_keeps_key _ _ _ _ n Hloop); [done | | done].
  fold n in Hentry. by rewrite Hentry.
Qed.

Lemma register_entities_first_occurrence_witness :
  ∃ actions,
    _get_actions example_requests (example_entity "/apps/1" "app" None)
      = ret actions
    ∧ ∀ apps',
        register_entities example_requests
          [example_entity "/apps/1" "app" None;
           example_entity "/apps/2" "app" (Some "app-b")] ∅ = ret apps' →
        app_actions <$> apps' !! "app" = Some actions.
Proof.
  eexists. split; [reflexivity |]. intros apps' Hloop.
  destruct (register_entities_first_occurrence example_requests []
              (example_entity "/apps/1" "app" None)
              [example_entity "/apps/2" "app" (Some "app-b")]
              ∅ apps' Hloop)
    as (actions & Hact & Hentry).
  - reflexivity.
  - intros e' []%elem_of_nil.
  - intros e' [-> | []%elem_of_nil]%elem_of_cons. discriminate.
  - cbn in Hentry. rewrite Hentry. cbn. injection Hact as <-. reflexivity.
Defined.
